(** * markov-namegen: the back-off letter model and the word generator

    A shallow embedding of [src/main.cpp] (classes [Model] and
    [WordGenerator]) together with the properties of its specification.

    Conventions of the embedding.
    - [std::string] is a list of [ascii] characters, [std::vector<T>] a list,
      [std::unordered_map<std::string, T>] a [gmap] keyed by strings (the
      iteration order of the map is the one of [map_fold]; nothing below
      depends on it).
    - [int] and [size_t] values are integers of [Z]; the conversion of an
      [int] to [size_t], which the usual arithmetic conversions insert when
      the two meet, is written [size_t] and wraps modulo [2^64].  Loop
      counters and counts of observations are taken to stay below [2^31]
      (see [representable]), so [int] arithmetic itself is exact.
    - [double] is read as an exact rational of [Q]: weights are sums of a
      prior and small counts, and rounding is outside this model.
    - A call either returns, throws a C++ exception, has undefined behaviour
      (an index past the end of a vector), or is still running when the fuel
      of a loop with no bound of its own is used up: see [outcome].
    - [rand()] reads the next element of an arbitrary sequence of integers
      ([srand(time(NULL))] in the constructors only chooses the sequence);
      the state threaded through the sampling code is the position in it.
      What holds for every sequence holds for those within
      [[0, RAND_MAX]].
    - Memory is unbounded: no allocation fails, and [reserve] and the sizes
      of strings and vectors stay below [max_size()]. *)

From Stdlib Require Import ZArith QArith Ascii String List Lia.
From stdpp Require Import gmap strings list fin_maps sorting.

Open Scope Z_scope.

(** ** Platform parameters *)

(** What the C++ implementation leaves to the platform: whether plain [char]
    is signed (it decides how [std::sort] orders characters above 127) and
    the value of [RAND_MAX] from [<cstdlib>]. *)
Class Platform := {
  char_is_signed : bool;
  RAND_MAX : Z
}.

(** ** Basic types *)

Abbreviation cstring := (list ascii).
Abbreviation double := Q.
(** [typedef std::unordered_map<std::string, std::vector<double>> modelData] *)
Abbreviation modelData := (gmap (list ascii) (list Q)).

(** The literal ['#'] of the source. *)
Definition boundary : ascii := "#"%char.

(** Reading a string literal as a [std::string]. *)
Definition str (s : string) : cstring := list_ascii_of_string s.

(** ** Outcomes of a call *)

Inductive exn : Set :=
| out_of_range   (* std::out_of_range *)
| length_error.  (* std::length_error *)

Inductive outcome (A : Type) : Type :=
| Ret (a : A)       (* normal return *)
| Throw (e : exn)   (* an exception leaves the function *)
| Undefined         (* undefined behaviour *)
| Diverge.          (* fuel of an unbounded loop exhausted *)

Arguments Ret {A} a.
Arguments Throw {A} e.
Arguments Undefined {A}.
Arguments Diverge {A}.

#[global] Instance outcome_ret : MRet outcome := λ A a, Ret a.
#[global] Instance outcome_bind : MBind outcome := λ A B f c,
  match c with
  | Ret a => f a
  | Throw e => Throw e
  | Undefined => Undefined
  | Diverge => Diverge
  end.

(** A range-based [for] whose body may fail. *)
Fixpoint for_each {S A} (body : S → A → outcome S) (l : list A) (s : S)
  : outcome S :=
  match l with
  | [] => Ret s
  | x :: l' => s' ← body s x; for_each body l' s'
  end.

(** ** The pseudo-random source *)

Record rng := mkRng {
  rng_seq : nat → Z;   (* what successive calls of rand() return *)
  rng_pos : nat        (* number of calls made so far *)
}.

(** Computations that draw from the random source. *)
Definition M (A : Type) : Type := rng → outcome (A * rng).

#[global] Instance M_ret : MRet M := λ A a s, Ret (a, s).
#[global] Instance M_bind : MBind M := λ A B f c s,
  match c s with
  | Ret (a, s') => f a s'
  | Throw e => Throw e
  | Undefined => Undefined
  | Diverge => Diverge
  end.

Definition lift {A} (c : outcome A) : M A := λ s,
  match c with
  | Ret a => Ret (a, s)
  | Throw e => Throw e
  | Undefined => Undefined
  | Diverge => Diverge
  end.

(** [rand()] *)
Definition rand : M Z := λ s,
  Ret (rng_seq s (rng_pos s), mkRng (rng_seq s) (S (rng_pos s))).

(** The source after [n] further draws. *)
Definition rng_skip (n : nat) (s : rng) : rng :=
  mkRng (rng_seq s) (n + rng_pos s).

(** ** Integers and library calls *)

(** Conversion to [size_t] (64 bits). *)
Definition size_t (z : Z) : Z := z mod 2 ^ 64.

(** Conversion of a [size_t] to [int] (32 bits, two's complement). *)
Definition to_int (z : Z) : Z := (z + 2 ^ 31) mod 2 ^ 32 - 2 ^ 31.

(** [s.size()] *)
Definition size {A} (s : list A) : Z := Z.of_nat (length s).

(** [s.substr(pos, len)], both arguments already of type [size_t]: throws
    [std::out_of_range] when [pos > s.size()]. *)
Definition substr (s : cstring) (pos len : Z) : outcome cstring :=
  if size s <? pos then Throw out_of_range
  else Ret (take (Z.to_nat len) (drop (Z.to_nat pos) s)).

(** [s.at(pos)]: throws [std::out_of_range] when [pos >= s.size()]. *)
Definition string_at (s : cstring) (pos : Z) : outcome ascii :=
  match s !! Z.to_nat pos with
  | Some c => Ret c
  | None => Throw out_of_range
  end.

(** [std::string(n, c)] with [n] an [int]: a negative [n] converts to a size
    above [max_size()] and the constructor throws [std::length_error]. *)
Definition string_fill (n : Z) (c : ascii) : outcome cstring :=
  if n <? 0 then Throw length_error else Ret (replicate (Z.to_nat n) c).

(** [v[i]] on a vector, [i] an [int]: past the end it is undefined. *)
Definition vector_at {A} (v : list A) (i : Z) : outcome A :=
  if i <? 0 then Undefined
  else match v !! Z.to_nat i with
       | Some x => Ret x
       | None => Undefined
       end.

(** An update of [v[i]] in place through the reference [v[i]]. *)
Definition vector_update {A} (f : A → A) (v : list A) (i : Z)
  : outcome (list A) :=
  if (i <? 0) || (size v <=? i) then Undefined
  else Ret (alter f (Z.to_nat i) v).

(** [v.resize(n)] with [n] an [int] and default-constructed new elements;
    a negative [n] throws [std::length_error]. *)
Definition vector_resize {A} (v : list A) (n : Z) (d : A) : outcome (list A) :=
  if n <? 0 then Throw length_error else Ret (resize (Z.to_nat n) d v).

(** [random < total] on doubles. *)
Definition Qltb (x y : Q) : bool := negb (Qle_bool y x).

(** ** [struct ExportedModel] *)

Record ExportedModel := mkExportedModel {
  alphabet : list ascii;
  models : list modelData
}.

(** ** [class Model] *)

Module Model.

Record t := mk {
  m_dPrior : double;
  m_order : Z;
  (* List of letters in the model *)
  m_alphabet : list ascii;
  (* Katz's back-off model with high order models. *)
  m_models : list modelData
}.

Section Methods.
Context `{Platform}.

Definition order (m : t) : Z := m_order m.

Definition isTrained (m : t) : bool :=
  match m_models m with
  | [] => false
  | _ :: _ => true
  end.

Definition getModel (m : t) (order : Z) : outcome modelData :=
  vector_at (m_models m) (order - 1).

(** The first loop of [selectIndex]: the running sums and their last value. *)
Definition accumulate (chain : list double) : double * list double :=
  foldl (λ '(accumulator, totals) weight,
           let accumulator := (accumulator + weight)%Q in
           (accumulator, totals ++ [accumulator]))
        (0%Q, []) chain.

(** The second loop of [selectIndex], started at index [i]: the first index
    whose total exceeds [random], if the loop returns from its body. *)
Fixpoint first_exceeding (random : double) (totals : list double) (i : nat)
  : option nat :=
  match totals with
  | [] => None
  | total :: totals' =>
      if Qltb random total then Some i
      else first_exceeding random totals' (S i)
  end.

Definition selectIndex (chain : list double) : M nat :=
  let '(accumulator, totals) := accumulate chain in
  r ← rand;
  let randRes := (inject_Z r / inject_Z RAND_MAX)%Q in
  let random := (randRes * accumulator)%Q in
  mret (default 0%nat (first_exceeding random totals 0)).

(** The loop of [generate], entered with [i = n]. *)
Fixpoint generate_from (m : t) (context : cstring) (n : nat) : M ascii :=
  match n with
  | O => mret boundary
  | S n' =>
      let i := Z.of_nat n in
      let order := m_order m in
      s ← lift (substr context (size_t (size context - i)) (size_t i));
      model ← lift (getModel m order);
      match model !! s with
      | Some chain =>
          index ← selectIndex chain;
          lift (vector_at (m_alphabet m) (Z.of_nat index))
      | None => generate_from m context n'
      end
  end.

(** Return the next char based on a context/word *)
Definition generate (m : t) (context : cstring) : M ascii :=
  if negb (isTrained m) then mret boundary
  else generate_from m context (Z.to_nat (m_order m)).

(** [observations[key].push_back(c)] *)
Definition observe (key : cstring) (c : ascii)
    (observations : gmap cstring (list ascii)) : gmap cstring (list ascii) :=
  <[key := default [] (observations !! key) ++ [c]]> observations.

(** The body of the loop over the training words in [buildChains]. *)
Definition scan_word (order : Z) (padding : cstring)
    (observations : gmap cstring (list ascii)) (word : cstring)
  : outcome (gmap cstring (list ascii)) :=
  let word := padding ++ word ++ [boundary] in
  let bound := size_t (size word - order) in
  for_each (λ observations i,
              key ← substr word (size_t i) (size_t order);
              c ← string_at word (size_t (i + order));
              mret (observe key c observations))
           (Z.of_nat <$> seq 0 (Z.to_nat bound)) observations.

(** The innermost loop of [buildChains]. *)
Definition count_char (prediction : ascii) (value : list ascii) : Z :=
  foldl (λ count c, if decide (prediction = c) then count + 1 else count)
        0 value.

(** [model[key].push_back(w)]: [operator[]] creates an empty vector for a
    key that is not there yet. *)
Definition push_weight (key : cstring) (w : double) (model : modelData)
  : modelData :=
  <[key := default [] (model !! key) ++ [w]]> model.

(** The loop over the alphabet for one observed key. *)
Definition chain_key (dPrior : double) (alphabet : list ascii) (order : Z)
    (key : cstring) (value : list ascii) (chains : list modelData)
  : outcome (list modelData) :=
  for_each (λ chains prediction,
              let count := count_char prediction value in
              vector_update
                (push_weight key (dPrior + inject_Z count)%Q)
                chains (order - 1))
           alphabet chains.

(** generate the chain for a given order based on the training data,
    the chain vector must be initialized before calling this function. *)
Definition buildChains (m : t) (trainData : list cstring) (order : Z)
  : outcome t :=
  padding ← string_fill order boundary;
  observations ← for_each (scan_word order padding) trainData ∅;
  chains ← map_fold (λ key value acc,
                        chains ← acc;
                        chain_key (m_dPrior m) (m_alphabet m) order
                                  key value chains)
                     (Ret (m_models m)) observations;
  mret (mk (m_dPrior m) (m_order m) (m_alphabet m) chains).

(** The value of a plain [char] as the platform compares it. *)
Definition char_val (c : ascii) : Z :=
  let n := Z.of_N (N_of_ascii c) in
  if char_is_signed && (128 <=? n) then n - 256 else n.

(** [std::sort] on a vector of characters (any sorting algorithm returns
    the same vector, equal characters being indistinguishable). *)
Fixpoint sort_insert (c : ascii) (l : list ascii) : list ascii :=
  match l with
  | [] => [c]
  | x :: l' =>
      if char_val c <=? char_val x then c :: l else x :: sort_insert c l'
  end.

Definition sort (l : list ascii) : list ascii := foldr sort_insert [] l.

(** The body of the inner loop of [generateAlphabet]. *)
Definition add_char (alphabet : list ascii) (c : ascii) : list ascii :=
  if decide (c ∈ alphabet) then alphabet else alphabet ++ [c].

(** Generate a list of all the chars in the training data *)
Definition generateAlphabet (m : t) (trainData : list cstring) : t :=
  let alphabet := [boundary] in
  let alphabet := foldl (λ alphabet word, foldl add_char alphabet word)
                        alphabet trainData in
  mk (m_dPrior m) (m_order m) (sort alphabet) (m_models m).

Definition p_train (m : t) (trainData : list cstring) : outcome t :=
  let m := generateAlphabet m trainData in
  (* build the chains of every order *)
  for_each (λ m i, buildChains m trainData i)
           (Z.of_nat <$> seq 1 (Z.to_nat (m_order m))) m.

(** [Model(trainData, order, dPrior)]: the initialiser [m_models(order)],
    which throws [std::length_error] for a negative [order], then
    [m_models.resize(m_order)] and [p_train]. *)
Definition create (trainData : list cstring) (order : Z) (dPrior : double)
  : outcome t :=
  chains ← vector_resize [] order ∅;
  chains ← vector_resize chains order ∅;
  p_train (mk dPrior order [] chains) trainData.

(** [Model(const ExportedModel &)] and [Model(ExportedModel &&)]: the two
    have the same initialisers.  [m_dPrior] is left uninitialised; [indet]
    stands for whatever it holds. *)
Definition import (indet : double) (model : ExportedModel) : t :=
  mk indet (to_int (size_t (size (models model) - 1)))
     (alphabet model) (models model).

(** [Model()] *)
Definition empty (indet : double) : t := mk indet 0 [] [].

Definition exportData (m : t) : ExportedModel :=
  mkExportedModel (m_alphabet m) (m_models m).

Definition train (m : t) (trainData : list cstring) (order : Z)
    (dPrior : double) : outcome t :=
  chains ← vector_resize (m_models m) order ∅;
  let chains := (λ _, ∅) <$> chains in
  p_train (mk dPrior order (m_alphabet m) chains) trainData.

End Methods.
End Model.

(** ** [class WordGenerator] *)

Module WordGenerator.

Record t := mk {
  m_model : Model.t
}.

Section Methods.
Context `{Platform}.

(** [WordGenerator()] *)
Definition empty (indet : double) : t := mk (Model.empty indet).

(** [WordGenerator(ExportedModel &&model) : m_model(model)] *)
Definition import (indet : double) (model : ExportedModel) : t :=
  mk (Model.import indet model).

(** [WordGenerator(trainData, order, prior)] *)
Definition create (trainData : list cstring) (order : Z) (prior : double)
  : outcome t :=
  m ← Model.create trainData order prior; mret (mk m).

Definition train (g : t) (trainData : list cstring) (order : Z)
    (dPrior : double) : outcome t :=
  m ← Model.train (m_model g) trainData order dPrior; mret (mk m).

Definition isTrained (g : t) : bool := Model.isTrained (m_model g).

(** The loop [while (letter != '#')] of [newWord]; it has no bound of its
    own, [fuel] limits the number of letters appended. *)
Fixpoint extend (fuel : nat) (g : t) (word : cstring) (letter : ascii)
  : M cstring :=
  if decide (letter ≠ boundary) then
    match fuel with
    | O => λ _, Diverge
    | S fuel' =>
        let word := word ++ [letter] in
        letter ← Model.generate (m_model g) word;
        extend fuel' g word letter
    end
  else mret word.

(** [word.erase(std::remove(word.begin(), word.end(), '#'), word.end())] *)
Definition strip (word : cstring) : cstring :=
  filter (λ c, c ≠ boundary) word.

(** The body of the [do ... while] loop of [newWord]: one candidate word. *)
Definition attempt (fuel : nat) (g : t) : M cstring :=
  word ← lift (string_fill (Model.order (m_model g)) boundary);
  letter ← Model.generate (m_model g) word;
  word ← extend fuel g word letter;
  mret (strip word).

(** [word.size() < minLength || word.size() > maxLength]: each [int] bound
    is converted to [size_t] for the comparison. *)
Definition outside (word : cstring) (minLength maxLength : Z) : bool :=
  (size word <? size_t minLength) || (size_t maxLength <? size word).

(** The [do ... while] loop of [newWord], entered with the counter at [i];
    the result carries the final value of the counter with the word.
    [turns] limits the number of iterations the model follows. *)
Fixpoint attempts (turns : nat) (fuel : nat) (g : t)
    (minLength maxLength : Z) (i : Z) : M (cstring * Z) :=
  match turns with
  | O => λ _, Diverge
  | S turns' =>
      word ← attempt fuel g;
      let i := i + 1 in
      if (i <? 100) && outside word minLength maxLength
      then attempts turns' fuel g minLength maxLength i
      else mret (word, i)
  end.

(** [newWord] together with the number of candidates it generated. *)
Definition newWord_counted (fuel : nat) (g : t) (minLength maxLength : Z)
  : M (cstring * Z) :=
  if negb (isTrained g) then mret ([], 0)
  else attempts fuel fuel g minLength maxLength 0.

Definition newWord (fuel : nat) (g : t) (minLength maxLength : Z)
  : M cstring :=
  r ← newWord_counted fuel g minLength maxLength; mret (r.1).

(** The loop [while (words.size() < n)] of [newWords]. *)
Fixpoint collect (turns : nat) (fuel : nat) (g : t) (n : nat)
    (minLength maxLength : Z) (repeat : bool) (words : list cstring)
  : M (list cstring) :=
  if (length words <? n)%nat then
    match turns with
    | O => λ _, Diverge
    | S turns' =>
        word ← newWord fuel g minLength maxLength;
        let words :=
          if repeat || negb (bool_decide (word ∈ words))
          then words ++ [word] else words in
        collect turns' fuel g n minLength maxLength repeat words
    end
  else mret words.

(** [newWords(n, minLength, maxLength, repeat)]; [turns] limits the
    iterations of its loop, [fuel] is handed to each [newWord]. *)
Definition newWords (turns fuel : nat) (g : t) (n : nat)
    (minLength maxLength : Z) (repeat : bool) : M (list cstring) :=
  if negb (isTrained g) then mret []
  else collect turns fuel g n minLength maxLength repeat [].

Definition exportData (g : t) : ExportedModel :=
  Model.exportData (m_model g).

End Methods.
End WordGenerator.

(** ** Example platform and inputs *)

(** x86-64 Linux with glibc: plain [char] is signed, [RAND_MAX] is
    [2^31 - 1]. *)
Definition linux_x86_64 : Platform :=
  {| char_is_signed := true; RAND_MAX := 2147483647 |}.

(** A random source whose every draw is [r]. *)
Definition constant_rng (r : Z) : rng := mkRng (λ _, r) 0.

(** A corpus of one word, and the generator trained on it with order 2 and
    no prior. *)
Definition corpus_ab : list cstring := [str "ab"].

Definition generator_ab : WordGenerator.t :=
  WordGenerator.mk
    (Model.mk 0 2 (str "#ab")
       [ {[ str "#" := [0; 1; 0]%Q; str "a" := [0; 0; 1]%Q;
            str "b" := [1; 0; 0]%Q ]};
         {[ str "##" := [0; 1; 0]%Q; str "#a" := [0; 0; 1]%Q;
            str "ab" := [1; 0; 0]%Q ]} ]).

(** The generator trained on the single word "a" with order 1 and a prior
    of 1/100. *)
Definition corpus_a : list cstring := [str "a"].

Definition generator_a : WordGenerator.t :=
  WordGenerator.mk
    (Model.mk (1 # 100) 1 (str "#a")
       [ {[ str "#" := [(1 # 100) + 0; (1 # 100) + 1]%Q;
            str "a" := [(1 # 100) + 1; (1 # 100) + 0]%Q ]} ]).



(** The value a sampling computation returned, without the random source. *)
Definition value {A} (r : outcome (A * rng)) : outcome A :=
  match r with
  | Ret (a, _) => Ret a
  | Throw e => Throw e
  | Undefined => Undefined
  | Diverge => Diverge
  end.

(** ** The words of the specification *)

Section Specification.
Context `{Platform}.

(** [predictNext] as the specification describes it: for each order [i]
    from the maximal one down to 1 the trailing [i] characters of the
    context are looked up in the chain built for order [i]; an order longer
    than the context is skipped; the first hit is sampled. *)
Fixpoint predictNext_spec_from (m : Model.t) (context : cstring) (n : nat)
  : M ascii :=
  match n with
  | O => mret boundary
  | S n' =>
      let hit :=
        if decide (n ≤ length context)%nat
        then model ← Model.m_models m !! n';
             model !! drop (length context - n) context
        else None in
      match hit with
      | Some chain =>
          index ← Model.selectIndex chain;
          lift (vector_at (Model.m_alphabet m) (Z.of_nat index))
      | None => predictNext_spec_from m context n'
      end
  end.

Definition predictNext_spec (m : Model.t) (context : cstring) : M ascii :=
  predictNext_spec_from m context (Z.to_nat (Model.m_order m)).

(** A training word with [k] boundary markers before it and one after. *)
Definition padded (k : nat) (w : cstring) : cstring :=
  replicate k boundary ++ w ++ [boundary].

(** Every position of the padded word at which [k] characters are followed
    by one more: the [k] characters and their follower. *)
Definition transitions (k : nat) (w : cstring) : list (cstring * ascii) :=
  let p := padded k w in
  omap (λ i, c ← p !! (i + k)%nat; Some (take k (drop i p), c))
       (seq 0 (length p)).

(** The number of occurrences of [c] right after [key] across the corpus. *)
Definition occurrences (k : nat) (key : cstring) (c : ascii)
    (corpus : list cstring) : nat :=
  length (filter (λ kc, kc = (key, c)) (corpus ≫= transitions k)).

(** [key] is followed by some character somewhere in the corpus. *)
Definition observed (k : nat) (key : cstring) (corpus : list cstring)
  : Prop :=
  ∃ c, (key, c) ∈ corpus ≫= transitions k.

(** The weight vector the specification gives an observed key. *)
Definition weights_spec (prior : double) (alphabet : list ascii) (k : nat)
    (key : cstring) (corpus : list cstring) : list double :=
  (λ c, prior + inject_Z (Z.of_nat (occurrences k key c corpus)))%Q
    <$> alphabet.

(** The order and the positions of every padded training word are values
    of [int], the type of [order] and of the loop counter of
    [buildChains]. *)
Definition representable (corpus : list cstring) (n : nat) : Prop :=
  Z.of_nat n < 2 ^ 31
  ∧ Forall (λ w, size w + Z.of_nat n + 1 < 2 ^ 31) corpus.

(** Ascending order of characters, as [operator<] on [char] has it. *)
Definition char_lt (a b : ascii) : Prop :=
  Model.char_val a < Model.char_val b.

Definition char_le (a b : ascii) : Prop :=
  Model.char_val a ≤ Model.char_val b.

End Specification.

(** ** Notions used in the proofs *)

(** The random source only moves forward. *)
Definition advances (s s' : rng) : Prop := ∃ n, s' = rng_skip n s.

(** The sum of the weights up to position [i]. *)
Definition running_sum (chain : list double) (i : nat) : double :=
  foldl Qplus 0%Q (take (S i) chain).

(** The value [selectIndex] compares the running sums with. *)
Definition drawn `{Platform} (chain : list double) (s : rng) : double :=
  (inject_Z (rng_seq s (rng_pos s)) / inject_Z RAND_MAX
   * foldl Qplus 0 chain)%Q.

(** A character [generate] may have produced. *)
Definition producible (g : WordGenerator.t) (c : ascii) : Prop :=
  c = boundary ∨ c ∈ Model.m_alphabet (WordGenerator.m_model g).

(** The alphabet of a corpus: exactly the characters of its words and the
    boundary marker, in ascending order, each once. *)
Definition alphabet_of `{Platform} (corpus : list cstring)
    (a : list ascii) : Prop :=
  (∀ c, c ∈ a ↔ c = boundary ∨ ∃ w, w ∈ corpus ∧ c ∈ w)
  ∧ StronglySorted char_lt a
  ∧ NoDup a.

(** Closed forms of what training computes; each is proved equal to the
    embedding of the code below. *)

(** One more observation in the map. *)
Definition record (observations : gmap cstring (list ascii))
    (kc : cstring * ascii) : gmap cstring (list ascii) :=
  Model.observe kc.1 kc.2 observations.

(** The observations [buildChains] has gathered after its first loop. *)
Definition observations (k : nat) (corpus : list cstring)
  : gmap cstring (list ascii) :=
  foldl record ∅ (corpus ≫= transitions k).

(** The weight vector [buildChains] computes from the followers of a key. *)
Definition weights (prior : double) (alphabet : list ascii)
    (value : list ascii) : list double :=
  (λ prediction, prior + inject_Z (Model.count_char prediction value))%Q
    <$> alphabet.

(** The chain of order [k]. *)
Definition chain (prior : double) (alphabet : list ascii) (k : nat)
    (corpus : list cstring) : modelData :=
  weights prior alphabet <$> observations k corpus.

(** The model after training with order [n]. *)
Definition trained `{Platform} (corpus : list cstring) (n : nat)
    (prior : double) : Model.t :=
  let a := Model.m_alphabet
             (Model.generateAlphabet (Model.mk prior 0 [] []) corpus) in
  Model.mk prior (Z.of_nat n) a
           ((λ k, chain prior a (S k) corpus) <$> seq 0 n).

(** What the loop over the positions of one padded word records. *)
Definition follower (k : nat) (p : cstring) (i : nat)
  : option (cstring * ascii) :=
  c ← p !! (i + k)%nat; Some (take k (drop i p), c).

(** The followers recorded for a key, in the order of the scan. *)
Definition followers (key : cstring) (l : list (cstring * ascii))
  : list ascii :=
  (filter (λ kc, kc.1 = key) l).*2.

(** What training establishes and sampling relies on: there are chains,
    at least as many as the order says, the alphabet is not empty, and
    every weight vector has one entry per letter. *)
Definition well_formed (m : Model.t) : Prop :=
  Model.m_models m ≠ []
  ∧ 0 ≤ Model.m_order m
  ∧ (Z.to_nat (Model.m_order m) ≤ length (Model.m_models m))%nat
  ∧ Model.m_alphabet m ≠ []
  ∧ ∀ model key v,
      model ∈ Model.m_models m → model !! key = Some v →
      length v = length (Model.m_alphabet m).

(** The generator was built from a corpus by its constructor or by
    [train], or from the snapshot exported by such a generator. *)
Definition trained_generator `{Platform} (corpus : list cstring) (n : nat)
    (prior : double) (g : WordGenerator.t) : Prop :=
  WordGenerator.create corpus (Z.of_nat n) prior = Ret g
  ∨ (∃ g0, WordGenerator.train g0 corpus (Z.of_nat n) prior = Ret g)
  ∨ (∃ g0 indet,
       WordGenerator.create corpus (Z.of_nat n) prior = Ret g0
       ∧ g = WordGenerator.import indet (WordGenerator.exportData g0)).


(** * Properties *)

(** ** Reasoning about outcomes *)

Lemma outcome_bind_Ret {A B} (c : outcome A) (k : A → outcome B) b :
  c ≫= k = Ret b → ∃ a, c = Ret a ∧ k a = Ret b.
Proof. destruct c; simpl; intros E; try discriminate. eauto. Qed.

Lemma M_bind_Ret {A B} (c : M A) (k : A → M B) s r :
  (c ≫= k) s = Ret r → ∃ a s', c s = Ret (a, s') ∧ k a s' = Ret r.
Proof.
  unfold mbind, M_bind. destruct (c s) as [[a s']| | |]; intros E;
    try discriminate. eauto.
Qed.

Lemma M_bind_step {A B} (c : M A) (k : A → M B) s a s' :
  c s = Ret (a, s') → (c ≫= k) s = k a s'.
Proof. unfold mbind, M_bind. intros ->. reflexivity. Qed.

Lemma lift_Ret {A} (c : outcome A) s a s' :
  lift c s = Ret (a, s') → c = Ret a ∧ s' = s.
Proof. destruct c; simpl; intros E; inversion E; auto. Qed.

Lemma mret_Ret {A} (a b : A) (s s' : rng) :
  (mret a : M A) s = Ret (b, s') → b = a ∧ s' = s.
Proof. unfold mret, M_ret. intros E; inversion E; auto. Qed.

(** Taking a computation that returned apart, one bind at a time. *)
Ltac invert_run :=
  repeat match goal with
  | E : (_ ≫= _) _ = Ret _ |- _ =>
      apply M_bind_Ret in E; destruct E as (? & ? & ? & E)
  | E : lift _ _ = Ret (_, _) |- _ =>
      apply lift_Ret in E; destruct E as [E ?]; subst
  | E : mret _ _ = Ret (_, _) |- _ =>
      apply mret_Ret in E; destruct E as [? ?]; subst
  | E : _ ≫= _ = Ret _ |- _ =>
      apply outcome_bind_Ret in E; destruct E as (? & ? & E)
  end.

Lemma advances_refl s : advances s s.
Proof. exists 0%nat. destruct s; reflexivity. Qed.

Lemma advances_trans s1 s2 s3 :
  advances s1 s2 → advances s2 s3 → advances s1 s3.
Proof.
  intros [n ->] [k ->]. exists (k + n)%nat. unfold rng_skip; simpl.
  f_equal. lia.
Qed.

Section Sampling.
Context `{Platform}.

(** ** [selectIndex] *)

Lemma selectIndex_run chain s :
  ∃ i, Model.selectIndex chain s = Ret (i, rng_skip 1 s).
Proof.
  unfold Model.selectIndex. destruct (Model.accumulate chain) as [acc totals].
  eexists. reflexivity.
Qed.

Lemma selectIndex_state chain s i s' :
  Model.selectIndex chain s = Ret (i, s') → s' = rng_skip 1 s.
Proof.
  destruct (selectIndex_run chain s) as [j E]. rewrite E.
  by intros [= _ <-].
Qed.

Lemma first_exceeding_bound random totals i j :
  Model.first_exceeding random totals i = Some j →
  (i ≤ j < i + length totals)%nat.
Proof.
  revert i. induction totals as [|t totals IH]; intros i; simpl; [done|].
  destruct (Qltb random t).
  - intros [= ->]. lia.
  - intros E. apply IH in E. lia.
Qed.

Lemma accumulate_length_from chain acc totals :
  length (foldl (λ '(accumulator, totals) weight,
                   let accumulator := (accumulator + weight)%Q in
                   (accumulator, totals ++ [accumulator]))
                (acc, totals) chain).2
  = (length totals + length chain)%nat.
Proof.
  revert acc totals. induction chain as [|w chain IH]; intros acc totals;
    simpl; [lia|].
  rewrite IH, length_app. simpl. lia.
Qed.

Lemma accumulate_length chain :
  length (Model.accumulate chain).2 = length chain.
Proof. unfold Model.accumulate. by rewrite accumulate_length_from. Qed.

(** The index [selectIndex] returns is a position of the weight vector, or
    0 when the vector is empty. *)
Lemma selectIndex_bound chain s i s' :
  Model.selectIndex chain s = Ret (i, s') →
  (i < length chain)%nat ∨ (i = 0%nat).
Proof.
  unfold Model.selectIndex. pose proof (accumulate_length chain) as L.
  destruct (Model.accumulate chain) as [acc totals]. simpl in L.
  intros E. invert_run.
  destruct (Model.first_exceeding _ totals 0) as [j|] eqn:F; simpl.
  - apply first_exceeding_bound in F. left. lia.
  - by right.
Qed.

(** ** [generate] *)

Lemma generate_untrained m context s :
  Model.m_models m = [] → Model.generate m context s = Ret (boundary, s).
Proof.
  intros E. unfold Model.generate, Model.isTrained. rewrite E. reflexivity.
Qed.

(** Whatever [generate] returns is the boundary marker or a letter of the
    alphabet, and the random source has only moved forward. *)
Lemma generate_from_letter m context n s c s' :
  Model.generate_from m context n s = Ret (c, s') →
  (c = boundary ∨ c ∈ Model.m_alphabet m) ∧ advances s s'.
Proof.
  induction n as [|n IH]; simpl; intros E.
  - invert_run. split; [by left | apply advances_refl].
  - invert_run. destruct (_ !! _) as [chain|].
    + invert_run.
      match goal with E1 : Model.selectIndex _ _ = Ret _ |- _ =>
        apply selectIndex_state in E1 as -> end.
      split; [right | by exists 1%nat].
      unfold vector_at in E. destruct (_ <? 0); [done|].
      destruct (Model.m_alphabet m !! _) as [a|] eqn:L; [|done].
      inversion E; subst. by eapply list_elem_of_lookup_2.
    + auto.
Qed.

Lemma generate_letter m context s c s' :
  Model.generate m context s = Ret (c, s') →
  (c = boundary ∨ c ∈ Model.m_alphabet m) ∧ advances s s'.
Proof.
  unfold Model.generate. destruct (negb _).
  - intros E. invert_run. split; [by left | apply advances_refl].
  - apply generate_from_letter.
Qed.

End Sampling.

(** ** What [selectIndex] returns *)

Section SelectIndex.
Context `{Platform}.

Lemma Qltb_lt (x y : Q) : Qltb x y = true ↔ (x < y)%Q.
Proof.
  unfold Qltb. rewrite negb_true_iff. split.
  - intros E. apply Qnot_le_lt. intros Hle%Qle_bool_iff. congruence.
  - intros Hlt. apply not_true_is_false. intros Hle%Qle_bool_iff.
    by apply (Qlt_not_le x y).
Qed.

Lemma Qltb_ge (x y : Q) : Qltb x y = false ↔ (y <= x)%Q.
Proof.
  unfold Qltb. rewrite negb_false_iff. apply Qle_bool_iff.
Qed.

Lemma accumulate_from (chain : list Q) : ∀ acc totals,
  foldl (λ '(accumulator, totals) weight,
           let accumulator := (accumulator + weight)%Q in
           (accumulator, totals ++ [accumulator]))
        (acc, totals) chain
  = (foldl Qplus acc chain,
     totals ++ ((λ i, foldl Qplus acc (take (S i) chain))
                  <$> seq 0 (length chain))).
Proof.
  induction chain as [|w chain IH]; intros acc totals.
  - simpl. by rewrite app_nil_r.
  - cbn [foldl length]. rewrite IH. f_equal.
    rewrite <- app_assoc. f_equal. cbn [seq fmap list_fmap]. simpl take.
    f_equal. rewrite <- fmap_S_seq, <- list_fmap_compose. done.
Qed.

Lemma accumulate_spec (chain : list Q) :
  Model.accumulate chain
  = (foldl Qplus 0%Q chain,
     (λ i, running_sum chain i) <$> seq 0 (length chain)).
Proof. unfold Model.accumulate. by rewrite accumulate_from. Qed.

Lemma first_exceeding_Some random totals : ∀ i0 j,
  Model.first_exceeding random totals i0 = Some j →
  ∃ k t, j = (i0 + k)%nat ∧ totals !! k = Some t ∧ (random < t)%Q
         ∧ ∀ k' t', (k' < k)%nat → totals !! k' = Some t' →
                    (t' <= random)%Q.
Proof.
  induction totals as [|t totals IH]; intros i0 j; simpl; [done|].
  destruct (Qltb random t) eqn:C.
  - intros [= <-]. exists 0%nat, t. apply Qltb_lt in C.
    split; [lia|]. split; [done|]. split; [done|]. intros; lia.
  - intros (k & t1 & -> & Hk & Hlt & Hmin)%IH. apply Qltb_ge in C.
    exists (S k), t1. split; [lia|]. split; [done|]. split; [done|].
    intros [|k'] t' Hk' Ht'; simpl in Ht'.
    + by injection Ht' as <-.
    + apply (Hmin k'); [lia|done].
Qed.

Lemma first_exceeding_None random totals i0 :
  Model.first_exceeding random totals i0 = None ↔
  Forall (λ t, t <= random)%Q totals.
Proof.
  revert i0. induction totals as [|t totals IH]; intros i0; simpl.
  - split; [constructor|done].
  - rewrite Forall_cons. destruct (Qltb random t) eqn:C.
    + apply Qltb_lt in C. split; [done|].
      intros [Hle _]. by apply Qlt_not_le in C.
    + apply Qltb_ge in C. rewrite IH. tauto.
Qed.

(** [selectIndex] returns the first position whose running sum exceeds the
    value drawn, and 0 when there is none. *)
Lemma selectIndex_spec chain s :
  ∃ i, Model.selectIndex chain s = Ret (i, rng_skip 1 s)
     ∧ ((running_sum chain i > drawn chain s)%Q
        ∧ (i < length chain)%nat
        ∧ (∀ k, (k < i)%nat → (running_sum chain k <= drawn chain s)%Q)
        ∨ i = 0%nat
          ∧ ∀ k, (k < length chain)%nat →
                 (running_sum chain k <= drawn chain s)%Q).
Proof.
  unfold Model.selectIndex. rewrite accumulate_spec.
  eexists. split; [reflexivity|]. fold (drawn chain s).
  destruct (Model.first_exceeding _ _ 0) as [j|] eqn:F; simpl.
  - left. apply first_exceeding_Some in F as (k & t & -> & Hk & Hlt & Hmin).
    simpl. apply list_lookup_fmap_Some in Hk as (i & -> & [-> Hi]%lookup_seq).
    simpl in *. split; [done|]. split; [done|].
    intros k' Hk'. apply (Hmin k'); [done|].
    rewrite list_lookup_fmap, lookup_seq_lt by lia. done.
  - right. split; [done|]. intros k Hk.
    apply first_exceeding_None in F. rewrite Forall_forall in F.
    apply F. apply list_elem_of_fmap. exists k. split; [done|].
    apply elem_of_seq. lia.
Qed.

Lemma foldl_Qplus_ge (chain : list Q) : ∀ acc,
  Forall (λ w, 0 <= w)%Q chain → (acc <= foldl Qplus acc chain)%Q.
Proof.
  induction chain as [|w chain IH]; intros acc Hnn; simpl.
  - apply Qle_refl.
  - apply Forall_cons in Hnn as [Hw Hnn].
    eapply Qle_trans; [|by apply IH].
    rewrite <- (Qplus_0_r acc) at 1. by apply Qplus_le_r.
Qed.

Lemma running_sum_le_total (chain : list Q) k :
  Forall (λ w, 0 <= w)%Q chain →
  (running_sum chain k <= foldl Qplus 0 chain)%Q.
Proof.
  intros Hnn. unfold running_sum.
  rewrite <- (take_drop (S k) chain) at 2. rewrite foldl_app.
  apply foldl_Qplus_ge. rewrite <- (take_drop (S k) chain) in Hnn.
  by apply Forall_app in Hnn as [_ ?].
Qed.

(** When the value drawn is the total itself, no running sum of
    non-negative weights exceeds it and index 0 is returned. *)
Lemma selectIndex_fallback chain s :
  Forall (λ w, 0 <= w)%Q chain →
  (drawn chain s == foldl Qplus 0 chain)%Q →
  Model.selectIndex chain s = Ret (0%nat, rng_skip 1 s).
Proof.
  intros Hnn Hd. destruct (selectIndex_spec chain s) as (i & -> & [(Hi & _)|[-> _]]);
    [|done].
  exfalso. apply (Qlt_not_le _ _ Hi). rewrite Hd.
  by apply running_sum_le_total.
Qed.

(** The defensive case: all weights zero. *)
Lemma selectIndex_zero_total chain s :
  Forall (λ w, 0 <= w)%Q chain →
  (foldl Qplus 0 chain == 0)%Q →
  Model.selectIndex chain s = Ret (0%nat, rng_skip 1 s).
Proof.
  intros Hnn Hz. apply selectIndex_fallback; [done|].
  unfold drawn. rewrite Hz. apply Qmult_0_r.
Qed.

(** The draw [RAND_MAX]. *)
Lemma selectIndex_RAND_MAX chain s :
  0 < RAND_MAX →
  Forall (λ w, 0 <= w)%Q chain →
  rng_seq s (rng_pos s) = RAND_MAX →
  Model.selectIndex chain s = Ret (0%nat, rng_skip 1 s).
Proof.
  intros Hpos Hnn Hr. apply selectIndex_fallback; [done|].
  unfold drawn. rewrite Hr. unfold Qdiv. rewrite Qmult_inv_r.
  - apply Qmult_1_l.
  - unfold Qeq. simpl. lia.
Qed.
End SelectIndex.

Section Words.
Context `{Platform}.

Implicit Types (g : WordGenerator.t) (w word : cstring) (s : rng).

Lemma extend_letters fuel g : ∀ word letter s w s',
  WordGenerator.extend fuel g word letter s = Ret (w, s') →
  Forall (producible g) word → producible g letter →
  Forall (producible g) w ∧ advances s s'.
Proof.
  induction fuel as [|fuel IH]; intros word letter s w s'; simpl;
    destruct (decide (letter ≠ boundary)) as [Hl|Hl]; intros E Hw Hc;
    try discriminate;
    try (invert_run; split; [done | apply advances_refl]).
  invert_run.
  match goal with G : Model.generate _ _ _ = Ret _ |- _ =>
    apply generate_letter in G as [G1 G2] end.
  apply IH in E as [E1 E2]; [|by apply Forall_app_2; [|constructor]|done].
  split; [done | by eapply advances_trans].
Qed.

Lemma strip_spec word c : c ∈ WordGenerator.strip word ↔ c ∈ word ∧ c ≠ boundary.
Proof. unfold WordGenerator.strip. rewrite list_elem_of_filter. tauto. Qed.

Lemma attempt_letters fuel g s w s' :
  WordGenerator.attempt fuel g s = Ret (w, s') →
  (∀ c, c ∈ w → c ≠ boundary ∧ c ∈ Model.m_alphabet (WordGenerator.m_model g))
  ∧ advances s s'.
Proof.
  unfold WordGenerator.attempt. intros E. invert_run.
  match goal with G : Model.generate _ _ _ = Ret _ |- _ =>
    apply generate_letter in G as [G1 G2] end.
  match goal with G : WordGenerator.extend _ _ _ _ _ = Ret _ |- _ =>
    apply extend_letters in G as [G3 G4]; [|clear G|done] end.
  - split; [|by eapply advances_trans].
    intros c [Hc Hne]%strip_spec. split; [done|].
    rewrite Forall_forall in G3. by destruct (G3 c Hc).
  - match goal with G : string_fill _ _ = Ret _ |- _ =>
      unfold string_fill in G; destruct (_ <? 0); [done|];
      inversion G; subst end.
    apply Forall_forall.
    intros c ->%elem_of_replicate_inv. by left.
Qed.

(** What the [do ... while] loop returns is the candidate of its last
    iteration; the counter has been incremented at least once, stops at 100
    at the latest, and stops earlier only on a word inside the bounds. *)
Lemma attempts_last turns fuel g minLength maxLength : ∀ i s w j s',
  WordGenerator.attempts turns fuel g minLength maxLength i s
    = Ret ((w, j), s') →
  (∃ s0, advances s s0 ∧ WordGenerator.attempt fuel g s0 = Ret (w, s'))
  ∧ i < j ∧ (i < 100 → j ≤ 100)
  ∧ (j < 100 → WordGenerator.outside w minLength maxLength = false).
Proof.
  induction turns as [|turns IH]; intros i s w j s'; simpl; [done|].
  intros E. apply M_bind_Ret in E as (w0 & s1 & Ea & E).
  cbv beta zeta in E.
  destruct ((i + 1 <? 100) && WordGenerator.outside w0 minLength maxLength)
    eqn:C.
  - apply andb_true_iff in C as [C1%Z.ltb_lt C2].
    apply IH in E as ((s0 & A1 & A2) & B1 & B2 & B3).
    split; [|split; [lia|split; [lia|done]]].
    exists s0. split; [|done].
    apply attempt_letters in Ea as [_ Ea]. by eapply advances_trans.
  - apply mret_Ret in E as [[= -> ->] ->].
    split; [|split; [lia|split; [lia|]]].
    + exists s. split; [apply advances_refl | done].
    + intros L. apply andb_false_iff in C as [C%Z.ltb_ge|C]; [lia|done].
Qed.

Lemma newWord_counted_inv fuel g minLength maxLength s w j s' :
  WordGenerator.newWord_counted fuel g minLength maxLength s
    = Ret ((w, j), s') →
  (WordGenerator.isTrained g = false ∧ w = [] ∧ j = 0 ∧ s' = s)
  ∨ (WordGenerator.isTrained g = true ∧
     WordGenerator.attempts fuel fuel g minLength maxLength 0 s
       = Ret ((w, j), s')).
Proof.
  unfold WordGenerator.newWord_counted.
  destruct (WordGenerator.isTrained g); simpl; intros E.
  - by right.
  - apply mret_Ret in E as [[= <- <-] ->]. by left.
Qed.

Lemma newWord_inv fuel g minLength maxLength s w s' :
  WordGenerator.newWord fuel g minLength maxLength s = Ret (w, s') →
  ∃ j, WordGenerator.newWord_counted fuel g minLength maxLength s
         = Ret ((w, j), s').
Proof.
  unfold WordGenerator.newWord. intros E. invert_run.
  match goal with x : (cstring * Z)%type |- _ => destruct x as [w0 j] end.
  by exists j.
Qed.

(** C10.  Every string [newWord] returns, on any generator and for any
    bounds, is free of the boundary marker: each of its characters is a
    letter of the model's alphabet other than ['#']. *)
Theorem newWord_free_of_boundary g fuel minLength maxLength s w s' :
  WordGenerator.newWord fuel g minLength maxLength s = Ret (w, s') →
  (boundary ∉ w) ∧
  ∀ c, c ∈ w →
    c ∈ Model.m_alphabet (WordGenerator.m_model g) ∧ c ≠ boundary.
Proof.
  intros [j E]%newWord_inv.
  apply newWord_counted_inv in E as [(_ & -> & _)|[_ E]].
  - split; [apply not_elem_of_nil | by intros c ?%elem_of_nil].
  - apply attempts_last in E as ((s0 & _ & E) & _).
    apply attempt_letters in E as [E _].
    split; [by intros [? _]%E | intros c Hc; by destruct (E c Hc)].
Qed.

(** C9.  On an untrained model (one without chains) [predictNext] returns
    the boundary marker for every context, [newWord] the empty string and
    [newWords] the empty sequence, each at once: no draw is made and no
    iteration of a loop is entered, whatever the arguments. *)
Theorem untrained_fallbacks g :
  Model.m_models (WordGenerator.m_model g) = [] →
  (∀ context s,
     Model.generate (WordGenerator.m_model g) context s
       = Ret (boundary, s))
  ∧ (∀ fuel minLength maxLength s,
       WordGenerator.newWord fuel g minLength maxLength s = Ret ([], s))
  ∧ (∀ turns fuel n minLength maxLength repeat s,
       WordGenerator.newWords turns fuel g n minLength maxLength repeat s
         = Ret ([], s)).
Proof.
  intros E. split; [|split].
  - intros. by apply generate_untrained.
  - intros. unfold WordGenerator.newWord, WordGenerator.newWord_counted,
      WordGenerator.isTrained, Model.isTrained. by rewrite E.
  - intros. unfold WordGenerator.newWords, WordGenerator.isTrained,
      Model.isTrained. by rewrite E.
Qed.

End Words.

(** ** The alphabet *)

Section Alphabet.
Context `{Platform}.

Lemma N_of_ascii_bound c : (N_of_ascii c < 256)%N.
Proof. destruct c as [[] [] [] [] [] [] [] []]; vm_compute; reflexivity. Qed.

Lemma char_val_inj a b : Model.char_val a = Model.char_val b → a = b.
Proof.
  unfold Model.char_val. intros E.
  pose proof (N_of_ascii_bound a). pose proof (N_of_ascii_bound b).
  assert (N_of_ascii a = N_of_ascii b) as E'.
  { destruct (char_is_signed && (128 <=? Z.of_N (N_of_ascii a))) eqn:Ca,
      (char_is_signed && (128 <=? Z.of_N (N_of_ascii b))) eqn:Cb;
    rewrite ?andb_true_iff, ?andb_false_iff, ?Z.leb_le, ?Z.leb_gt in Ca, Cb;
    lia. }
  rewrite <- (ascii_N_embedding a), <- (ascii_N_embedding b). by rewrite E'.
Qed.

Lemma elem_of_sort_insert c l x :
  x ∈ Model.sort_insert c l ↔ x = c ∨ x ∈ l.
Proof.
  induction l as [|y l IH]; simpl.
  - rewrite list_elem_of_singleton, elem_of_nil. tauto.
  - destruct (_ <=? _); rewrite !elem_of_cons, ?IH; tauto.
Qed.

Lemma elem_of_sort l x : x ∈ Model.sort l ↔ x ∈ l.
Proof.
  induction l as [|y l IH]; simpl; [done|].
  rewrite elem_of_sort_insert, elem_of_cons, IH. tauto.
Qed.

Lemma sort_insert_sorted c l :
  c ∉ l → StronglySorted char_lt l →
  StronglySorted char_lt (Model.sort_insert c l).
Proof.
  induction l as [|y l IH]; simpl; intros Hc Hs.
  - repeat constructor.
  - apply not_elem_of_cons in Hc as [Hne Hc].
    apply StronglySorted_cons in Hs as [Hy Hs].
    destruct (Model.char_val c <=? Model.char_val y) eqn:C.
    + apply Z.leb_le in C.
      assert (char_lt c y) as Hcy.
      { unfold char_lt. destruct (decide (Model.char_val c = Model.char_val y))
          as [E%char_val_inj|]; [done|lia]. }
      apply StronglySorted_cons. split.
      * constructor; [done|].
        eapply Forall_impl; [exact Hy|]. unfold char_lt in *. intros; lia.
      * apply StronglySorted_cons. done.
    + apply Z.leb_gt in C. apply StronglySorted_cons. split; [|by apply IH].
      apply Forall_forall. intros x [->|Hx]%elem_of_sort_insert.
      * unfold char_lt. lia.
      * rewrite Forall_forall in Hy. by apply Hy.
Qed.

Lemma sort_sorted l : NoDup l → StronglySorted char_lt (Model.sort l).
Proof.
  induction 1 as [|x l Hx Hl IH]; simpl; [constructor|].
  apply sort_insert_sorted; [by rewrite elem_of_sort | done].
Qed.

Lemma char_lt_irrefl c : ¬ char_lt c c.
Proof. unfold char_lt. lia. Qed.

Lemma sorted_NoDup l : StronglySorted char_lt l → NoDup l.
Proof.
  induction l as [|x l IH]; [constructor|].
  intros [Hx Hs]%StronglySorted_cons. constructor; [|by apply IH].
  intros Hin. rewrite Forall_forall in Hx.
  by apply (char_lt_irrefl x), Hx.
Qed.

Lemma sort_insert_perm c l : Model.sort_insert c l ≡ₚ c :: l.
Proof.
  induction l as [|x l IH]; simpl; [done|].
  destruct (_ <=? _); [done|]. rewrite IH. apply Permutation_swap.
Qed.

Lemma sort_perm l : Model.sort l ≡ₚ l.
Proof.
  induction l as [|x l IH]; simpl; [done|].
  by rewrite sort_insert_perm, IH.
Qed.

Lemma sort_insert_ordered c l :
  StronglySorted char_le l → StronglySorted char_le (Model.sort_insert c l).
Proof.
  induction l as [|x l IH]; simpl; intros Hs; [repeat constructor|].
  apply StronglySorted_cons in Hs as [Hx Hs].
  destruct (Z.leb_spec (Model.char_val c) (Model.char_val x)) as [C|C].
  - apply StronglySorted_cons. split.
    + constructor; [done|]. eapply Forall_impl; [exact Hx|].
      unfold char_le in *. intros; lia.
    + by apply StronglySorted_cons.
  - apply StronglySorted_cons. split; [|by apply IH].
    rewrite sort_insert_perm. constructor; [|done]. unfold char_le. lia.
Qed.

Lemma sort_ordered l : StronglySorted char_le (Model.sort l).
Proof.
  induction l as [|x l IH]; simpl; [constructor|].
  by apply sort_insert_ordered.
Qed.

(** [sort] is the only way to put a vector of characters in order: whatever
    algorithm [std::sort] runs, its result is this one. *)
Lemma sort_unique l l' :
  l' ≡ₚ l → StronglySorted char_le l' → l' = Model.sort l.
Proof.
  intros Hp Hs. apply (StronglySorted_unique_strong char_le); [|done|..].
  - unfold char_le. intros a b _ _ Hab Hba. apply char_val_inj. lia.
  - apply sort_ordered.
  - by rewrite sort_perm.
Qed.
Lemma add_char_spec a c x : x ∈ Model.add_char a c ↔ x ∈ a ∨ x = c.
Proof.
  unfold Model.add_char. destruct (decide (c ∈ a)).
  - split; [by left | by intros [?| ->]].
  - rewrite elem_of_app, list_elem_of_singleton. tauto.
Qed.

Lemma add_char_NoDup a c : NoDup a → NoDup (Model.add_char a c).
Proof.
  unfold Model.add_char. destruct (decide (c ∈ a)); [done|].
  intros Ha. apply NoDup_app. split; [done|]. split.
  - intros x Hx ->%list_elem_of_singleton. done.
  - apply NoDup_singleton.
Qed.

Lemma add_word_spec w : ∀ a x,
  x ∈ foldl Model.add_char a w ↔ x ∈ a ∨ x ∈ w.
Proof.
  induction w as [|c w IH]; intros a x; simpl.
  - rewrite elem_of_nil. tauto.
  - rewrite IH, add_char_spec, elem_of_cons. tauto.
Qed.

Lemma add_word_NoDup w : ∀ a, NoDup a → NoDup (foldl Model.add_char a w).
Proof.
  induction w as [|c w IH]; intros a Ha; simpl; [done|].
  by apply IH, add_char_NoDup.
Qed.

Lemma add_words_spec corpus : ∀ a x,
  x ∈ foldl (λ alphabet word, foldl Model.add_char alphabet word) a corpus
  ↔ x ∈ a ∨ ∃ w, w ∈ corpus ∧ x ∈ w.
Proof.
  induction corpus as [|w corpus IH]; intros a x; simpl.
  - split; [by left|]. intros [|(w & Hw%elem_of_nil & _)]; done.
  - rewrite IH, add_word_spec. split.
    + intros [[|]|(w' & Hw' & Hx)]; [by left|right..].
      * exists w. split; [left|]; done.
      * exists w'. split; [by right|done].
    + intros [|(w' & [->|Hw']%elem_of_cons & Hx)]; [left; by left|..].
      * left; by right.
      * right. by exists w'.
Qed.

Lemma add_words_NoDup corpus : ∀ a,
  NoDup a →
  NoDup (foldl (λ alphabet word, foldl Model.add_char alphabet word) a corpus).
Proof.
  induction corpus as [|w corpus IH]; intros a Ha; simpl; [done|].
  by apply IH, add_word_NoDup.
Qed.

(** The alphabet [generateAlphabet] leaves in the model. *)
Lemma generateAlphabet_spec m corpus :
  alphabet_of corpus (Model.m_alphabet (Model.generateAlphabet m corpus)).
Proof.
  unfold alphabet_of, Model.generateAlphabet; simpl.
  assert (NoDup [boundary]) as Hb by apply NoDup_singleton.
  split; [|split].
  - intros c. rewrite elem_of_sort, add_words_spec, list_elem_of_singleton.
    done.
  - by apply sort_sorted, add_words_NoDup.
  - by apply sorted_NoDup, sort_sorted, add_words_NoDup.
Qed.

End Alphabet.

(** ** The observations of [buildChains] *)

Section Observations.

Lemma size_t_small z : 0 ≤ z < 2 ^ 64 → size_t z = z.
Proof. intros. unfold size_t. by apply Z.mod_small. Qed.

Lemma substr_take_drop (s : cstring) (i k : nat) :
  (i ≤ length s)%nat → Z.of_nat i < 2 ^ 64 → Z.of_nat k < 2 ^ 64 →
  substr s (size_t (Z.of_nat i)) (size_t (Z.of_nat k))
  = Ret (take k (drop i s)).
Proof.
  intros Hi Hi' Hk. unfold substr, size.
  rewrite !size_t_small by lia.
  destruct (Z.ltb_spec (Z.of_nat (length s)) (Z.of_nat i)); [lia|].
  by rewrite !Nat2Z.id.
Qed.

Lemma scan_positions (k : nat) (p : cstring) (l : list nat) : ∀ obs,
  size p < 2 ^ 64 →
  Forall (λ i, i + k < length p)%nat l →
  for_each (λ observations i,
              key ← substr p (size_t i) (size_t (Z.of_nat k));
              c ← string_at p (size_t (i + Z.of_nat k));
              mret (Model.observe key c observations))
           (Z.of_nat <$> l) obs
  = Ret (foldl record obs (omap (follower k p) l)).
Proof.
  unfold size. set (body := λ observations i, _).
  induction l as [|i l IH]; intros obs Hp Hl; [done|].
  apply Forall_cons in Hl as [Hi Hl].
  destruct (lookup_lt_is_Some_2 p (i + k)%nat Hi) as [c Hc].
  assert (body obs (Z.of_nat i) = Ret (record obs (take k (drop i p), c)))
    as Hstep.
  { unfold body. rewrite substr_take_drop by lia. simpl.
    unfold string_at. rewrite size_t_small by lia.
    replace (Z.to_nat (Z.of_nat i + Z.of_nat k)) with (i + k)%nat by lia.
    by rewrite Hc. }
  assert (follower k p i = Some (take k (drop i p), c)) as Hf.
  { unfold follower. by rewrite Hc. }
  change (body obs (Z.of_nat i) ≫= for_each body (Z.of_nat <$> l)
          = Ret (foldl record obs (omap (follower k p) (i :: l)))).
  rewrite Hstep. simpl. rewrite Hf. simpl. by apply IH.
Qed.

Lemma omap_follower_past k (p : cstring) (l : list nat) :
  Forall (λ i, length p ≤ i + k)%nat l → omap (follower k p) l = [].
Proof.
  induction 1 as [|i l Hi Hl IH]; [done|].
  assert (follower k p i = None) as Hf.
  { unfold follower. by rewrite lookup_ge_None_2. }
  simpl. rewrite Hf. exact IH.
Qed.

Lemma padded_length k w : length (padded k w) = (k + length w + 1)%nat.
Proof. unfold padded. rewrite !length_app, length_replicate. simpl. lia. Qed.

Lemma transitions_positions k w :
  transitions k w = omap (follower k (padded k w)) (seq 0 (S (length w))).
Proof.
  unfold transitions. fold (follower k (padded k w)).
  rewrite padded_length.
  replace (k + length w + 1)%nat with (S (length w) + k)%nat by lia.
  rewrite seq_app, omap_app, (omap_follower_past _ _ (seq _ k)), app_nil_r;
    [done|].
  apply Forall_forall. intros i Hi%elem_of_seq. rewrite padded_length. lia.
Qed.

Lemma scan_word_closed k w obs :
  size w + Z.of_nat k + 1 < 2 ^ 64 →
  Model.scan_word (Z.of_nat k) (replicate k boundary) obs w
  = Ret (foldl record obs (transitions k w)).
Proof.
  intros Hw. unfold Model.scan_word. fold (padded k w).
  assert (size (padded k w) = Z.of_nat k + size w + 1) as Hp.
  { unfold size in *. rewrite padded_length. lia. }
  rewrite Hp, (size_t_small (Z.of_nat k + size w + 1 - Z.of_nat k))
    by (unfold size in *; lia).
  replace (Z.to_nat (Z.of_nat k + size w + 1 - Z.of_nat k))
    with (S (length w)) by (unfold size; lia).
  rewrite transitions_positions. apply scan_positions; [lia|].
  apply Forall_forall. intros i Hi%elem_of_seq. rewrite padded_length. lia.
Qed.

Lemma scan_corpus_closed k corpus : ∀ obs,
  representable corpus k →
  for_each (Model.scan_word (Z.of_nat k) (replicate k boundary)) corpus obs
  = Ret (foldl record obs (corpus ≫= transitions k)).
Proof.
  intros obs [_ Hc]. revert obs.
  induction Hc as [|w corpus Hw Hc IH]; intros obs; simpl; [done|].
  rewrite scan_word_closed by lia. simpl.
  rewrite IH. by rewrite foldl_app.
Qed.

Lemma lookup_record_fold l : ∀ obs key,
  foldl record obs l !! key
  = match obs !! key with
    | Some v => Some (v ++ followers key l)
    | None => match followers key l with
              | [] => None
              | v => Some v
              end
    end.
Proof.
  induction l as [|[k c] l IH]; intros obs key; simpl.
  - unfold followers. simpl. destruct (obs !! key); [by rewrite app_nil_r|done].
  - rewrite IH. unfold record, Model.observe, followers. simpl.
    rewrite filter_cons. simpl.
    destruct (decide (k = key)) as [->|Hne].
    + rewrite lookup_insert_eq. simpl.
      destruct (obs !! key) as [v|]; simpl; [by rewrite <- app_assoc|done].
    + by rewrite lookup_insert_ne.
Qed.

Lemma lookup_observations k corpus key :
  observations k corpus !! key
  = match followers key (corpus ≫= transitions k) with
    | [] => None
    | v => Some v
    end.
Proof. unfold observations. by rewrite lookup_record_fold, lookup_empty. Qed.

End Observations.

(** ** The chains of [buildChains] *)

Section Chains.
Context `{Platform}.

Implicit Types (chains : list modelData) (model : modelData).

Lemma vector_update_ok {A} (f : A → A) (v : list A) (k : nat) :
  (k < length v)%nat →
  vector_update f v (Z.of_nat (S k) - 1) = Ret (alter f k v).
Proof.
  intros Hk. unfold vector_update, size.
  replace (Z.of_nat (S k) - 1) with (Z.of_nat k) by lia.
  destruct (Z.ltb_spec (Z.of_nat k) 0); [lia|].
  destruct (Z.leb_spec (Z.of_nat (length v)) (Z.of_nat k)); [lia|].
  by rewrite Nat2Z.id.
Qed.

(** All the weights of one key pushed in turn. *)
Lemma chain_key_closed prior key value k (a : list ascii) : ∀ chains,
  (k < length chains)%nat →
  Model.chain_key prior a (Z.of_nat (S k)) key value chains
  = Ret (alter (λ model,
                  foldl (λ model w, Model.push_weight key w model) model
                        (weights prior a value))
               k chains).
Proof.
  unfold Model.chain_key, weights.
  induction a as [|c a IH]; intros chains Hk.
  - simpl. by rewrite list_alter_id.
  - change (for_each ?body (c :: a) chains)
      with (body chains c ≫= for_each body a).
    cbv beta zeta. rewrite vector_update_ok by done. simpl.
    rewrite IH by (by rewrite length_alter).
    by rewrite list_alter_alter_eq.
Qed.

Lemma lookup_push_weights key ws : ∀ model key',
  foldl (λ model w, Model.push_weight key w model) model ws !! key'
  = if decide (key' = key)
    then match ws with
         | [] => model !! key
         | _ => Some (default [] (model !! key) ++ ws)
         end
    else model !! key'.
Proof.
  induction ws as [|w ws IH]; intros model key'; simpl.
  - by destruct (decide _) as [->|].
  - rewrite IH. unfold Model.push_weight.
    destruct (decide (key' = key)) as [->|Hne].
    + rewrite lookup_insert_eq. simpl.
      destruct ws; [done|]. by rewrite <- app_assoc.
    + by rewrite lookup_insert_ne.
Qed.

Lemma alter_insert_eq {A} (f : A → A) (l : list A) k x :
  alter f k (<[k:=x]> l) = <[k:=f x]> l.
Proof.
  rewrite (list_insert_alter l), list_alter_alter_eq.
  by rewrite list_insert_alter.
Qed.

(** The second loop of [buildChains], over the observed keys: only the
    chain of the order is touched, and each observed key receives its
    weights after whatever the chain held for it. *)
Lemma chains_fold_closed (prior : double) (a : list ascii) (k : nat)
    chains model0 (obs : gmap cstring (list ascii)) :
  a ≠ [] → chains !! k = Some model0 →
  ∃ model',
    map_fold (λ key value acc,
                chains ← acc;
                Model.chain_key prior a (Z.of_nat (S k)) key value chains)
             (Ret chains) obs
    = Ret (<[k:=model']> chains)
    ∧ ∀ key, model' !! key
             = match obs !! key with
               | Some value =>
                   Some (default [] (model0 !! key) ++ weights prior a value)
               | None => model0 !! key
               end.
Proof.
  intros Ha Hk.
  assert (k < length chains)%nat as Hlt by by eapply lookup_lt_Some.
  apply (map_fold_weak_ind (λ r obs,
    ∃ model', r = Ret (<[k:=model']> chains)
      ∧ ∀ key, model' !! key
               = match obs !! key with
                 | Some value =>
                     Some (default [] (model0 !! key)
                           ++ weights prior a value)
                 | None => model0 !! key
                 end)).
  - exists model0. split; [by rewrite list_insert_id|].
    intros key. by rewrite lookup_empty.
  - intros key value obs' r Hnone (model' & -> & Hm). simpl.
    rewrite chain_key_closed by (by rewrite length_insert).
    rewrite alter_insert_eq. eexists. split; [done|].
    intros key'. rewrite lookup_push_weights.
    destruct (decide (key' = key)) as [->|Hne].
    + rewrite lookup_insert_eq, Hm, Hnone.
      unfold weights at 1. destruct a; [done|]. done.
    + by rewrite lookup_insert_ne, Hm.
Qed.

Lemma chains_foldl_closed (prior : double) (a : list ascii) (k : nat)
    chains (l : list (cstring * list ascii)) :
  a ≠ [] → (k < length chains)%nat → NoDup l.*1 →
  ∀ model1, ∃ model',
    foldl (λ acc kv,
             chains ← acc;
             Model.chain_key prior a (Z.of_nat (S k)) kv.1 kv.2 chains)
          (Ret (<[k:=model1]> chains)) l
    = Ret (<[k:=model']> chains)
    ∧ ∀ key, model' !! key
             = match (list_to_map l : gmap cstring (list ascii)) !! key with
               | Some value =>
                   Some (default [] (model1 !! key) ++ weights prior a value)
               | None => model1 !! key
               end.
Proof.
  intros Ha Hk. induction l as [|[key0 v0] l IH]; intros Hnd model1.
  - exists model1. split; [done|]. intros key. simpl.
    by rewrite lookup_empty.
  - rewrite fmap_cons in Hnd. apply NoDup_cons in Hnd as [Hnot Hnd].
    cbn [foldl]. simpl.
    rewrite chain_key_closed by (by rewrite length_insert).
    rewrite alter_insert_eq.
    destruct (IH Hnd (foldl (λ model w, Model.push_weight key0 w model)
                        model1 (weights prior a v0))) as (model' & -> & Hm).
    exists model'. split; [done|]. intros key. rewrite Hm.
    rewrite lookup_push_weights.
    destruct (decide (key = key0)) as [->|Hne].
    + rewrite lookup_insert_eq.
      rewrite (not_elem_of_list_to_map_1 _ _ Hnot).
      unfold weights at 1 3. destruct a; [done|]. done.
    + by rewrite lookup_insert_ne.
Qed.

(** The chains do not depend on the order in which the observed keys are
    visited: iterating over any enumeration of the observations gives what
    [map_fold] gives. *)
Lemma chains_any_iteration_order (prior : double) (a : list ascii) (k : nat)
    chains model0 (obs : gmap cstring (list ascii))
    (l : list (cstring * list ascii)) :
  a ≠ [] → chains !! k = Some model0 → l ≡ₚ map_to_list obs →
  foldl (λ acc kv,
           chains ← acc;
           Model.chain_key prior a (Z.of_nat (S k)) kv.1 kv.2 chains)
        (Ret chains) l
  = map_fold (λ key value acc,
                chains ← acc;
                Model.chain_key prior a (Z.of_nat (S k)) key value chains)
             (Ret chains) obs.
Proof.
  intros Ha Hk Hl.
  assert (k < length chains)%nat as Hlt by by eapply lookup_lt_Some.
  assert (NoDup l.*1) as Hnd.
  { rewrite Hl. apply NoDup_fst_map_to_list. }
  destruct (chains_fold_closed prior a k chains model0 obs Ha Hk)
    as (m1 & -> & H1).
  destruct (chains_foldl_closed prior a k chains l Ha Hlt Hnd model0)
    as (m2 & E & H2).
  rewrite list_insert_id in E by done. rewrite E. do 2 f_equal.
  apply map_eq. intros key. rewrite H1, H2.
  by rewrite (list_to_map_proper _ _ Hnd Hl), list_to_map_to_list.
Qed.
Lemma string_fill_ok k c : string_fill (Z.of_nat k) c = Ret (replicate k c).
Proof.
  unfold string_fill. destruct (Z.ltb_spec (Z.of_nat k) 0); [lia|].
  by rewrite Nat2Z.id.
Qed.

(** [buildChains] for order [k + 1] on a model whose chain of that order is
    empty. *)
Lemma buildChains_closed m corpus k :
  representable corpus (S k) →
  Model.m_alphabet m ≠ [] →
  Model.m_models m !! k = Some ∅ →
  Model.buildChains m corpus (Z.of_nat (S k))
  = Ret (Model.mk (Model.m_dPrior m) (Model.m_order m) (Model.m_alphabet m)
           (<[k:=chain (Model.m_dPrior m) (Model.m_alphabet m) (S k) corpus]>
              (Model.m_models m))).
Proof.
  intros Hrep Ha Hk. unfold Model.buildChains.
  rewrite string_fill_ok. simpl.
  rewrite scan_corpus_closed by done. simpl.
  fold (observations (S k) corpus).
  destruct (chains_fold_closed (Model.m_dPrior m) (Model.m_alphabet m) k
              (Model.m_models m) ∅ (observations (S k) corpus) Ha Hk)
    as (model' & -> & Hm).
  simpl. unfold mret, outcome_ret. do 3 f_equal.
  apply map_eq. intros key. rewrite Hm. unfold chain.
  rewrite lookup_fmap, lookup_empty. by destruct (_ !! key).
Qed.

End Chains.

(** ** Training *)

Section Training.
Context `{Platform}.

Lemma representable_le corpus k n :
  (k ≤ n)%nat → representable corpus n → representable corpus k.
Proof.
  intros Hk [Hn Hc]. split; [lia|].
  eapply Forall_impl; [exact Hc|]. intros w. simpl. lia.
Qed.

(** The loop of [p_train] from order [j + 1] on, the chains of these
    orders being empty. *)
Lemma build_orders corpus prior order (a : list ascii) : ∀ r j chains,
  representable corpus (j + r) → a ≠ [] →
  length chains = (j + r)%nat →
  (∀ i, (j ≤ i < j + r)%nat → chains !! i = Some ∅) →
  for_each (λ m i, Model.buildChains m corpus i)
           (Z.of_nat <$> seq (S j) r) (Model.mk prior order a chains)
  = Ret (Model.mk prior order a
           (take j chains ++ ((λ k, chain prior a (S k) corpus) <$> seq j r))).
Proof.
  induction r as [|r IH]; intros j chains Hrep Ha Hlen Hempty.
  - simpl. by rewrite app_nil_r, take_ge by lia.
  - change (Model.buildChains (Model.mk prior order a chains) corpus
              (Z.of_nat (S j))
            ≫= for_each (λ m i, Model.buildChains m corpus i)
                 (Z.of_nat <$> seq (S (S j)) r)
            = Ret (Model.mk prior order a
                (take j chains
                 ++ chain prior a (S j) corpus
                    :: ((λ k, chain prior a (S k) corpus) <$> seq (S j) r)))).
    rewrite buildChains_closed; simpl;
      [|apply (representable_le _ _ (j + S r)); [lia|done]
       |done|apply Hempty; lia].
    rewrite IH; [|by replace (S j + r)%nat with (j + S r)%nat by lia|done|..].
    + do 2 f_equal.
      rewrite (take_S_r _ _ (chain prior a (S j) corpus))
        by (apply list_lookup_insert_eq; lia).
      rewrite take_insert_ge by lia. by rewrite <- app_assoc.
    + rewrite length_insert. lia.
    + intros i Hi. rewrite list_lookup_insert_ne by lia. apply Hempty. lia.
Qed.

Lemma boundary_in_alphabet m corpus :
  boundary ∈ Model.m_alphabet (Model.generateAlphabet m corpus).
Proof.
  destruct (generateAlphabet_spec m corpus) as [Hin _]. apply Hin. by left.
Qed.

(** [p_train] on a model whose [n] chains are empty. *)
Lemma p_train_closed corpus (n : nat) prior a0 :
  representable corpus n →
  Model.p_train (Model.mk prior (Z.of_nat n) a0 (replicate n ∅)) corpus
  = Ret (trained corpus n prior).
Proof.
  intros Hrep. unfold Model.p_train.
  pose proof (boundary_in_alphabet (Model.mk prior (Z.of_nat n) a0
                                      (replicate n ∅)) corpus) as Hb.
  unfold Model.generateAlphabet in *. simpl in *. rewrite Nat2Z.id.
  rewrite (build_orders corpus prior (Z.of_nat n) _ n 0);
    [done|done| |by rewrite length_replicate|].
  - intros E. rewrite E in Hb. by apply elem_of_nil in Hb.
  - intros i Hi. apply lookup_replicate_2. lia.
Qed.

Lemma vector_resize_ok {A} (v : list A) (n : nat) d :
  vector_resize v (Z.of_nat n) d = Ret (resize n d v).
Proof.
  unfold vector_resize. destruct (Z.ltb_spec (Z.of_nat n) 0); [lia|].
  by rewrite Nat2Z.id.
Qed.

(** The constructor from training data returns the trained model. *)
Lemma create_closed corpus (n : nat) prior :
  representable corpus n →
  Model.create corpus (Z.of_nat n) prior = Ret (trained corpus n prior).
Proof.
  intros Hrep. unfold Model.create.
  rewrite vector_resize_ok. simpl. rewrite vector_resize_ok. simpl.
  rewrite resize_nil, resize_all_alt by (by rewrite length_replicate).
  by apply p_train_closed.
Qed.

(** [train] returns the same model, whatever the model held before. *)
Lemma train_closed m0 corpus (n : nat) prior :
  representable corpus n →
  Model.train m0 corpus (Z.of_nat n) prior = Ret (trained corpus n prior).
Proof.
  intros Hrep. unfold Model.train. rewrite vector_resize_ok. simpl.
  rewrite (const_fmap _ _ ∅) by done. rewrite length_resize.
  by apply p_train_closed.
Qed.

Lemma count_char_from (prediction : ascii) (value : list ascii) : ∀ z,
  foldl (λ count c, if decide (prediction = c) then count + 1 else count)
        z value
  = z + Z.of_nat (length (filter (λ c, c = prediction) value)).
Proof.
  induction value as [|c value IH]; intros z; simpl; [lia|].
  rewrite IH, filter_cons.
  destruct (decide (prediction = c)) as [->|Hne].
  - rewrite decide_True by done. simpl. lia.
  - rewrite decide_False by done. done.
Qed.

Lemma count_char_filter (prediction : ascii) (value : list ascii) :
  Model.count_char prediction value
  = Z.of_nat (length (filter (λ c, c = prediction) value)).
Proof. unfold Model.count_char. by rewrite count_char_from. Qed.

Lemma followers_count (key : cstring) (c : ascii)
    (l : list (cstring * ascii)) :
  length (filter (λ x, x = c) (followers key l))
  = length (filter (λ kc, kc = (key, c)) l).
Proof.
  unfold followers. induction l as [|[k x] l IH]; [done|].
  rewrite !filter_cons. simpl.
  destruct (decide (k = key)) as [->|Hk]; simpl.
  - rewrite filter_cons. destruct (decide (x = c)) as [->|Hx].
    + rewrite decide_True by done. simpl. f_equal. exact IH.
    + rewrite decide_False by congruence. exact IH.
  - rewrite decide_False by congruence. exact IH.
Qed.

Lemma followers_nil (key : cstring) (l : list (cstring * ascii)) :
  followers key l = [] ↔ ¬ ∃ c, (key, c) ∈ l.
Proof.
  unfold followers. split.
  - intros E [c Hc].
    assert (c ∈ (filter (λ kc, kc.1 = key) l).*2) as Hin.
    { apply list_elem_of_fmap. exists (key, c). split; [done|].
      by apply list_elem_of_filter. }
    rewrite E in Hin. by apply elem_of_nil in Hin.
  - intros Hno. destruct (filter _ l) as [|[k c] l'] eqn:E; [done|].
    exfalso. apply Hno. exists c.
    assert ((k, c) ∈ filter (λ kc, kc.1 = key) l) as Hin
      by (rewrite E; left).
    apply list_elem_of_filter in Hin as [Hk Hin]. simpl in Hk. by subst.
Qed.

(** The weights the code computes are those of the specification. *)
Lemma weights_followers prior a k key corpus :
  weights prior a (followers key (corpus ≫= transitions k))
  = weights_spec prior a k key corpus.
Proof.
  unfold weights, weights_spec, occurrences. apply list_fmap_ext.
  intros i c _. by rewrite count_char_filter, followers_count.
Qed.

(** The chain of order [k]: an observed key holds the weights of the
    specification, any other key is absent. *)
Lemma lookup_chain prior a k corpus key :
  (observed k key corpus ∧
   chain prior a k corpus !! key = Some (weights_spec prior a k key corpus))
  ∨ (¬ observed k key corpus ∧ chain prior a k corpus !! key = None).
Proof.
  unfold chain, observed. rewrite lookup_fmap, lookup_observations.
  rewrite <- weights_followers.
  destruct (followers key _) as [|c v] eqn:E.
  - right. split; [by apply followers_nil|done].
  - left. split; [|done]. exists c.
    assert (c ∈ followers key (corpus ≫= transitions k)) as Hin
      by (rewrite E; left).
    apply list_elem_of_fmap in Hin as ([k' c'] & -> & Hin).
    apply list_elem_of_filter in Hin as [Hk Hin]. simpl in Hk. by subst.
Qed.

End Training.

Section TrainedModel.
Context `{Platform}.


Lemma lookup_trained corpus n prior k model :
  Model.m_models (trained corpus n prior) !! k = Some model →
  (k < n)%nat ∧
  model = chain prior (Model.m_alphabet (trained corpus n prior)) (S k) corpus.
Proof.
  unfold trained. simpl. rewrite list_lookup_fmap.
  destruct (seq 0 n !! k) as [j|] eqn:E; simpl; [|done].
  apply lookup_seq in E as [-> ?]. by intros [= <-].
Qed.


(** C6.  For every training corpus the alphabet that training leaves in
    the model holds exactly the characters of the corpus and the boundary
    marker, in ascending order, each of them once. *)
Theorem alphabet_after_training corpus (n : nat) (prior : double) :
  representable corpus n →
  ∃ m, Model.create corpus (Z.of_nat n) prior = Ret m
     ∧ (∀ m0, Model.train m0 corpus (Z.of_nat n) prior = Ret m)
     ∧ (∀ c, c ∈ Model.m_alphabet m ↔
             c = boundary ∨ ∃ w, w ∈ corpus ∧ c ∈ w)
     ∧ StronglySorted char_lt (Model.m_alphabet m)
     ∧ NoDup (Model.m_alphabet m).
Proof.
  intros Hrep. exists (trained corpus n prior).
  split; [by apply create_closed|]. split; [intros; by apply train_closed|].
  apply generateAlphabet_spec.
Qed.

End TrainedModel.

Lemma representable_ab : representable corpus_ab 2.
Proof. split; [lia|]. repeat constructor. Qed.


Lemma alphabet_after_training_witness :
  representable corpus_ab 2 ∧
  ∃ m, @Model.create linux_x86_64 corpus_ab 2 0%Q = Ret m
     ∧ NoDup (Model.m_alphabet m).
Proof.
  split; [exact representable_ab|].
  destruct (@alphabet_after_training linux_x86_64 corpus_ab 2 0%Q
              representable_ab) as (m & E & _ & _ & _ & N).
  exists m. split; [exact E | exact N].
Defined.

(** ** Sampling from a trained model *)

Section Totality.
Context `{Platform}.

Implicit Types (g : WordGenerator.t) (w word : cstring) (s : rng).

Lemma lift_step {A} (c : outcome A) a s : c = Ret a → lift c s = Ret (a, s).
Proof. by intros ->. Qed.

Lemma trained_well_formed corpus n prior :
  well_formed (trained corpus (S n) prior).
Proof.
  unfold well_formed, trained.
  cbn [Model.m_order Model.m_models Model.m_alphabet].
  split; [done|]. split; [lia|].
  split; [by rewrite length_fmap, length_seq, Nat2Z.id|].
  split.
  - pose proof (boundary_in_alphabet (Model.mk prior 0 [] []) corpus) as Hb.
    intros E. rewrite E in Hb. by apply elem_of_nil in Hb.
  - intros model key v (k & -> & _)%list_elem_of_fmap.
    unfold chain. rewrite lookup_fmap.
    destruct (_ !! key); simpl; [|done].
    intros [= <-]. unfold weights. by rewrite length_fmap.
Qed.

Lemma substr_returns (context : cstring) (j : nat) :
  (j ≤ length context)%nat →
  ∃ x, substr context (size_t (size context - Z.of_nat j))
         (size_t (Z.of_nat j)) = Ret x.
Proof.
  intros Hj. unfold substr, size_t, size.
  assert (0 ≤ Z.of_nat (length context) - Z.of_nat j) as Hnn by lia.
  pose proof (Z.mod_le _ (2 ^ 64) Hnn ltac:(lia)) as Hle.
  destruct (Z.ltb_spec (Z.of_nat (length context))
              ((Z.of_nat (length context) - Z.of_nat j) mod 2 ^ 64));
    [lia|eauto].
Qed.

(** On a well-formed model a context at least as long as the order makes
    [generate] return. *)
Lemma generate_from_total m (context : cstring) :
  well_formed m →
  (Z.to_nat (Model.m_order m) ≤ length context)%nat →
  ∀ j s, (j ≤ Z.to_nat (Model.m_order m))%nat →
  ∃ c s', Model.generate_from m context j s = Ret (c, s').
Proof.
  intros (_ & Hord & Hlen & Ha & Hvec) Hctx.
  induction j as [|j IH]; intros s Hj; [by eexists _, _|].
  cbn [Model.generate_from].
  destruct (substr_returns context (S j)) as [x Hx]; [lia|].
  rewrite (M_bind_step _ _ s x s) by (by apply lift_step).
  assert (∃ model, Model.getModel m (Model.m_order m) = Ret model
                   ∧ model ∈ Model.m_models m) as (model & Hg & Hin).
  { unfold Model.getModel, vector_at.
    destruct (Z.ltb_spec (Model.m_order m - 1) 0); [lia|].
    destruct (lookup_lt_is_Some_2 (Model.m_models m)
                (Z.to_nat (Model.m_order m - 1))) as [model Hm]; [lia|].
    rewrite Hm. exists model. split; [done|].
    by eapply list_elem_of_lookup_2. }
  rewrite (M_bind_step _ _ s model s) by (by apply lift_step).
  destruct (model !! x) as [chain0|] eqn:Hc; [|apply IH; lia].
  destruct (selectIndex_run chain0 s) as [i Hi].
  rewrite (M_bind_step _ _ s i (rng_skip 1 s)) by done.
  assert (i < length (Model.m_alphabet m))%nat as Hlt.
  { rewrite <- (Hvec model x chain0 Hin Hc).
    destruct (selectIndex_bound _ _ _ _ Hi) as [?| ->]; [done|].
    rewrite (Hvec model x chain0 Hin Hc).
    destruct (Model.m_alphabet m); [done|simpl; lia]. }
  destruct (lookup_lt_is_Some_2 _ _ Hlt) as [c Hc'].
  exists c, (rng_skip 1 s). apply lift_step.
  unfold vector_at. destruct (Z.ltb_spec (Z.of_nat i) 0); [lia|].
  by rewrite Nat2Z.id, Hc'.
Qed.

Lemma generate_total m (context : cstring) s :
  well_formed m →
  (Z.to_nat (Model.m_order m) ≤ length context)%nat →
  ∃ c s', Model.generate m context s = Ret (c, s').
Proof.
  intros Hwf Hctx. unfold Model.generate.
  destruct (negb _); [by eexists _, _|].
  by apply generate_from_total.
Qed.



End Totality.

(** ** More fuel changes nothing *)

Section Fuel.
Context `{Platform}.

Implicit Types (g : WordGenerator.t) (w word : cstring) (s : rng).







End Fuel.

(** ** [newWord] on a trained generator *)

Section NewWord.
Context `{Platform}.

Implicit Types (g : WordGenerator.t) (w word : cstring) (s : rng).









End NewWord.

(** The example generators are what training returns. *)
Lemma generator_ab_trained :
  @trained_generator linux_x86_64 corpus_ab 2 0 generator_ab.
Proof. left. vm_compute. reflexivity. Qed.

Lemma generator_a_trained :
  @trained_generator linux_x86_64 corpus_a 1 (1 # 100) generator_a.
Proof. left. vm_compute. reflexivity. Qed.





(** ** [newWords] on a trained generator *)

Section NewWords.
Context `{Platform}.

Implicit Types (g : WordGenerator.t) (w word : cstring) (s : rng).






End NewWords.



(** ** Where the code departs from the specification *)

Section Departures.
Context `{Platform}.

(** On a trained model a context shorter than the order makes [generate]
    throw: the position handed to [substr] has wrapped around. *)
Lemma generate_short_context_throws m (context : cstring) s :
  Model.isTrained m = true →
  size context < Model.m_order m < 2 ^ 31 →
  Model.generate m context s = Throw out_of_range.
Proof.
  intros Ht [Hlt Hint]. unfold Model.generate. rewrite Ht. simpl.
  assert (0 ≤ size context) as Hnn by (unfold size; lia).
  destruct (Z.to_nat (Model.m_order m)) as [|j] eqn:Ej; [lia|].
  cbn [Model.generate_from]. rewrite <- Ej, Z2Nat.id by lia.
  assert (substr context (size_t (size context - Model.m_order m))
            (size_t (Model.m_order m)) = Throw out_of_range) as E.
  { unfold substr, size_t at 1.
    rewrite <- (Z_mod_plus_full _ 1), Z.mod_small by lia.
    destruct (Z.ltb_spec (size context)
                (size context - Model.m_order m + 1 * 2 ^ 64)); [done|lia]. }
  unfold mbind, M_bind, lift. by rewrite E.
Qed.

(** The order of a model rebuilt from a snapshot is one less than the
    number of chains. *)
Lemma import_order indet (e : ExportedModel) :
  0 < size (models e) < 2 ^ 31 →
  Model.order (Model.import indet e) = size (models e) - 1.
Proof.
  intros Hs. unfold Model.order, Model.import, to_int. simpl.
  rewrite size_t_small by lia. rewrite Z.mod_small by lia. lia.
Qed.

Lemma import_export indet m :
  Model.m_alphabet (Model.import indet (Model.exportData m))
  = Model.m_alphabet m
  ∧ Model.m_models (Model.import indet (Model.exportData m))
    = Model.m_models m.
Proof. done. Qed.

Lemma transition_key_length k w key c :
  (key, c) ∈ transitions k w → length key = k.
Proof.
  unfold transitions. intros (i & _ & Hf)%list_elem_of_omap.
  destruct (padded k w !! (i + k)%nat) as [c'|] eqn:E; simpl in Hf; [|done].
  injection Hf as <- <-. apply lookup_lt_Some in E.
  rewrite length_take, length_drop. lia.
Qed.

Lemma chain_key_length prior a k corpus key v :
  chain prior a k corpus !! key = Some v → length key = k.
Proof.
  destruct (lookup_chain prior a k corpus key) as [[[c Ho] _]|[_ ->]];
    [|done].
  intros _. apply list_elem_of_bind in Ho as (w & Hc & _).
  by eapply transition_key_length.
Qed.





End Departures.

(** C1.  The loop of [generate] looks every key up in the chain of the
    maximal order ([getModel(order)], not [getModel(i)]).  On the model
    trained on "ab" with order 2 and the context "ba", the key "ba" is in
    no chain; the specification then finds "a" in the chain of order 1 and
    samples 'b', while the code looks "a" up in the chain of order 2,
    misses, and returns the boundary marker. *)
Theorem generate_never_backs_off :
  @trained_generator linux_x86_64 corpus_ab 2 0 generator_ab
  ∧ value (@Model.generate linux_x86_64 (WordGenerator.m_model generator_ab)
             (str "ba") (constant_rng 0)) = Ret boundary
  ∧ value (@predictNext_spec linux_x86_64
             (WordGenerator.m_model generator_ab) (str "ba")
             (constant_rng 0)) = Ret "b"%char.
Proof.
  split; [exact generator_ab_trained|]. split; vm_compute; reflexivity.
Qed.

(** C2.  A model rebuilt from an exported snapshot takes
    [models.size() - 1] for its order.  The model trained on "a" with
    order 1 exports one chain; the model rebuilt from it has the same
    alphabet and chains but order 0, and predicts the boundary marker
    where the original predicts 'a'. *)
Theorem import_drops_an_order :
  let m := WordGenerator.m_model generator_a in
  let m' := Model.import 0 (Model.exportData m) in
  @trained_generator linux_x86_64 corpus_a 1 (1 # 100) generator_a
  ∧ length (models (Model.exportData m)) = 1%nat
  ∧ Model.order m = 1
  ∧ Model.order m' = 0
  ∧ Model.m_alphabet m' = Model.m_alphabet m
  ∧ Model.m_models m' = Model.m_models m
  ∧ value (@Model.generate linux_x86_64 m (str "#")
             (constant_rng 1073741823)) = Ret "a"%char
  ∧ value (@Model.generate linux_x86_64 m' (str "#")
             (constant_rng 1073741823)) = Ret boundary.
Proof.
  cbv zeta. split; [exact generator_a_trained|].
  repeat split; vm_compute; reflexivity.
Qed.

(** C3.  A context shorter than the order is not skipped: in
    [context.substr(context.size() - i, i)] the difference wraps around to
    a position past the end and [substr] throws.  On the model trained on
    "ab" with order 2 the context "a" makes [generate] throw
    [std::out_of_range], where the specification skips order 2 and samples
    'b' from the chain of order 1. *)
Theorem generate_throws_on_short_context :
  @trained_generator linux_x86_64 corpus_ab 2 0 generator_ab
  ∧ value (@Model.generate linux_x86_64 (WordGenerator.m_model generator_ab)
             (str "a") (constant_rng 0)) = Throw out_of_range
  ∧ value (@predictNext_spec linux_x86_64
             (WordGenerator.m_model generator_ab) (str "a")
             (constant_rng 0)) = Ret "b"%char.
Proof.
  split; [exact generator_ab_trained|]. split; vm_compute; reflexivity.
Qed.

(** C4.  [selectIndex] scales by [rand() / RAND_MAX], which is 1 when
    [rand()] returns [RAND_MAX]: the value drawn is then the total itself,
    no running sum exceeds it, and index 0 is returned.  For the weights
    [0; 1] every value in [[0, 1)] selects index 1, the only letter with a
    weight; on the draw [RAND_MAX] the code returns index 0. *)
Theorem selectIndex_draw_reaches_total :
  (∀ random : Q, (0 <= random)%Q → (random < 1)%Q →
     Model.first_exceeding random (Model.accumulate [0; 1]%Q).2 0
     = Some 1%nat)
  ∧ value (@Model.selectIndex linux_x86_64 [0; 1]%Q
             (constant_rng (@RAND_MAX linux_x86_64))) = Ret 0%nat.
Proof.
  split; [|vm_compute; reflexivity].
  intros random H0 H1. cbn [Model.accumulate foldl snd app].
  unfold Model.first_exceeding, Qltb.
  assert (Qle_bool (0 + 0) random = true) as ->
    by (apply Qle_bool_iff; by rewrite Qplus_0_l).
  assert (Qle_bool (0 + 0 + 1) random = false) as ->; [|done].
  apply not_true_is_false. intros Hle%Qle_bool_iff.
  rewrite !Qplus_0_l in Hle. by apply (Qlt_not_le random 1).
Qed.

(** ** Instances *)

Lemma newWord_free_of_boundary_witness :
  value (@WordGenerator.newWord linux_x86_64 200 generator_ab 1 8
           (constant_rng 0)) = Ret (str "ab")
  ∧ (boundary ∉ str "ab")
  ∧ ∀ c, c ∈ str "ab" →
      c ∈ Model.m_alphabet (WordGenerator.m_model generator_ab)
      ∧ c ≠ boundary.
Proof.
  split; [vm_compute; reflexivity|].
  apply (@newWord_free_of_boundary linux_x86_64 generator_ab 200 1 8
           (constant_rng 0) (str "ab") (mkRng (λ _, 0) 3)).
  vm_compute. reflexivity.
Defined.

Lemma untrained_fallbacks_witness :
  Model.m_models (WordGenerator.m_model (WordGenerator.empty 0)) = []
  ∧ value (@Model.generate linux_x86_64
             (WordGenerator.m_model (WordGenerator.empty 0)) (str "abc")
             (constant_rng 7)) = Ret boundary
  ∧ value (@WordGenerator.newWord linux_x86_64 0 (WordGenerator.empty 0)
             1 10 (constant_rng 7)) = Ret []
  ∧ value (@WordGenerator.newWords linux_x86_64 0 0 (WordGenerator.empty 0)
             5 3 8 false (constant_rng 7)) = Ret [].
Proof.
  split; [reflexivity|].
  destruct (@untrained_fallbacks linux_x86_64 (WordGenerator.empty 0)
              eq_refl) as (Hg & Hw & Hws).
  split; [by rewrite Hg|]. split; [by rewrite Hw | by rewrite Hws].
Defined.

(** ** A scenario of the specification *)

(** The corpus "ab", "ac", "ad" with order 1 and no prior: the alphabet is
    '#', 'a', 'b', 'c', 'd', and after "a" the letters 'b', 'c' and 'd'
    have weight 1, the others (the boundary marker among them) weight 0. *)
Example scenario_ab_ac_ad :
  ∃ m, @Model.create linux_x86_64 [str "ab"; str "ac"; str "ad"] 1 0 = Ret m
     ∧ Model.m_alphabet m = str "#abcd"
     ∧ (∃ model, Model.m_models m = [model]
          ∧ model !! str "a" = Some [0; 0; 1; 1; 1]%Q
          ∧ model !! str "#" = Some [0; 3; 0; 0; 0]%Q
          ∧ model !! str "b" = Some [1; 0; 0; 0; 0]%Q
          ∧ model !! str "ab" = None).
Proof.
  eexists. split; [vm_compute; reflexivity|].
  split; [reflexivity|]. eexists. split; [reflexivity|].
  repeat split; vm_compute; reflexivity.
Qed.

(** * Further properties of the code *)

(** ** Weighted selection *)

Section SelectIndexMore.
Context `{Platform}.








(** X2.  Whatever the weights (negative ones included) and the draw, the
    index [selectIndex] returns is a position of a non-empty weight vector;
    on the empty vector it returns 0. *)
Theorem selectIndex_index_in_range (chain : list double) s :
  ∃ i, Model.selectIndex chain s = Ret (i, rng_skip 1 s)
     ∧ (chain = [] → i = 0%nat)
     ∧ (chain ≠ [] → (i < length chain)%nat).
Proof.
  destruct (selectIndex_run chain s) as [i E]. exists i. split; [done|].
  destruct (selectIndex_bound _ _ _ _ E) as [Hi| ->].
  - split; [intros ->; simpl in Hi; lia|done].
  - split; [done|]. intros Hne. destruct chain; [done|simpl; lia].
Qed.


(** X4.  The defensive case: when the non-negative weights sum to zero (in
    particular on the empty vector), [selectIndex] returns index 0 whatever
    the draw. *)
Theorem selectIndex_all_zero_weights (chain : list double) s :
  Forall (λ w, 0 <= w)%Q chain →
  (foldl Qplus 0 chain == 0)%Q →
  Model.selectIndex chain s = Ret (0%nat, rng_skip 1 s).
Proof. apply selectIndex_zero_total. Qed.

(** X5.  When [rand()] returns [RAND_MAX] the value drawn is the total
    itself, and [selectIndex] returns index 0 whatever the non-negative
    weights are. *)
Theorem selectIndex_on_RAND_MAX (chain : list double) s :
  0 < RAND_MAX →
  Forall (λ w, 0 <= w)%Q chain →
  rng_seq s (rng_pos s) = RAND_MAX →
  Model.selectIndex chain s = Ret (0%nat, rng_skip 1 s).
Proof. apply selectIndex_RAND_MAX. Qed.

End SelectIndexMore.

Lemma weights_0_1_0_2_nonneg : Forall (λ w, 0 <= w)%Q [0; 1; 0; 2]%Q.
Proof. repeat (apply Forall_cons; split; [by vm_compute|]). constructor. Qed.


Lemma selectIndex_all_zero_weights_witness :
  @Model.selectIndex linux_x86_64 [0; 0]%Q (constant_rng 12345)
  = Ret (0%nat, rng_skip 1 (constant_rng 12345)).
Proof.
  apply (@selectIndex_all_zero_weights linux_x86_64).
  - repeat (apply Forall_cons; split; [by vm_compute|]). constructor.
  - reflexivity.
Defined.

Lemma selectIndex_on_RAND_MAX_witness :
  @Model.selectIndex linux_x86_64 [0; 1; 0; 2]%Q (constant_rng 2147483647)
  = Ret (0%nat, rng_skip 1 (constant_rng 2147483647)).
Proof.
  apply (@selectIndex_on_RAND_MAX linux_x86_64).
  - reflexivity.
  - exact weights_0_1_0_2_nonneg.
  - reflexivity.
Defined.

(** ** Prediction *)

Section GenerateMore.
Context `{Platform}.

Lemma generate_from_draws m (context : cstring) n s c s' :
  Model.generate_from m context n s = Ret (c, s') →
  s' = s ∨ s' = rng_skip 1 s.
Proof.
  induction n as [|n IH]; simpl; intros E.
  - invert_run. by left.
  - invert_run. destruct (_ !! _) as [v|]; [|auto].
    invert_run.
    match goal with E1 : Model.selectIndex _ _ = Ret _ |- _ =>
      apply selectIndex_state in E1 as -> end.
    by right.
Qed.

Lemma generate_draws m (context : cstring) s c s' :
  Model.generate m context s = Ret (c, s') → s' = s ∨ s' = rng_skip 1 s.
Proof.
  unfold Model.generate. destruct (negb _).
  - intros E. invert_run. by left.
  - apply generate_from_draws.
Qed.

(** X6.  On a model built from a corpus, a context at least as long as the
    order makes [generate] return: it throws nothing, reads no vector past
    its end, makes at most one draw, and what it returns is a letter of the
    alphabet (the boundary marker is one). *)
Theorem generate_returns_letter_of_alphabet corpus (n : nat)
    (prior : double) m (context : cstring) s :
  representable corpus n →
  Model.create corpus (Z.of_nat n) prior = Ret m →
  (n ≤ length context)%nat →
  ∃ c s', Model.generate m context s = Ret (c, s')
        ∧ c ∈ Model.m_alphabet m
        ∧ (s' = s ∨ s' = rng_skip 1 s).
Proof.
  intros Hrep E Hlen. rewrite create_closed in E by done.
  injection E as <-.
  assert (boundary ∈ Model.m_alphabet (trained corpus n prior)) as Hb
    by apply boundary_in_alphabet.
  assert (∃ c s', Model.generate (trained corpus n prior) context s
                  = Ret (c, s')) as (c & s' & E).
  { destruct n as [|n].
    - eexists _, _. by apply generate_untrained.
    - apply generate_total; [apply trained_well_formed|].
      unfold trained. cbn [Model.m_order]. lia. }
  exists c, s'. split; [done|]. split; [|by eapply generate_draws].
  by apply generate_letter in E as [[->|?] _].
Qed.

(** X7.  On any model that has chains, a context shorter than the order
    makes [generate] throw [std::out_of_range]. *)
Theorem generate_short_context_out_of_range m (context : cstring) s :
  Model.isTrained m = true →
  size context < Model.m_order m < 2 ^ 31 →
  Model.generate m context s = Throw out_of_range.
Proof. apply generate_short_context_throws. Qed.


End GenerateMore.

Lemma create_ab :
  @Model.create linux_x86_64 corpus_ab (Z.of_nat 2) 0
  = Ret (WordGenerator.m_model generator_ab).
Proof. vm_compute. reflexivity. Qed.

Lemma generate_returns_letter_of_alphabet_witness :
  ∃ c s', @Model.generate linux_x86_64 (WordGenerator.m_model generator_ab)
            (str "#a") (constant_rng 0) = Ret (c, s')
        ∧ c ∈ Model.m_alphabet (WordGenerator.m_model generator_ab)
        ∧ (s' = constant_rng 0 ∨ s' = rng_skip 1 (constant_rng 0)).
Proof.
  apply (@generate_returns_letter_of_alphabet linux_x86_64 corpus_ab 2 0).
  - exact representable_ab.
  - exact create_ab.
  - vm_compute. lia.
Defined.

Lemma generate_short_context_out_of_range_witness :
  @Model.generate linux_x86_64 (WordGenerator.m_model generator_ab)
    (str "b") (constant_rng 0) = Throw out_of_range.
Proof.
  apply (@generate_short_context_out_of_range linux_x86_64).
  - reflexivity.
  - split; reflexivity.
Defined.


(** ** Training *)

Section TrainingMore.
Context `{Platform}.

Lemma alphabet_of_unique corpus1 corpus2 (a1 a2 : list ascii) :
  (∀ c, (∃ w, w ∈ corpus1 ∧ c ∈ w) ↔ (∃ w, w ∈ corpus2 ∧ c ∈ w)) →
  alphabet_of corpus1 a1 → alphabet_of corpus2 a2 → a1 = a2.
Proof.
  intros Hsame (Hin1 & Hs1 & Hn1) (Hin2 & Hs2 & Hn2).
  apply (StronglySorted_unique_strong char_lt); [|done|done|].
  - unfold char_lt. intros x1 x2 _ _ ? ?. lia.
  - apply NoDup_Permutation; [done|done|].
    intros c. rewrite Hin1, Hin2, Hsame. done.
Qed.

Lemma alphabet_same_characters m1 m2 corpus1 corpus2 :
  (∀ c, (∃ w, w ∈ corpus1 ∧ c ∈ w) ↔ (∃ w, w ∈ corpus2 ∧ c ∈ w)) →
  Model.m_alphabet (Model.generateAlphabet m1 corpus1)
  = Model.m_alphabet (Model.generateAlphabet m2 corpus2).
Proof.
  intros Hsame.
  eapply alphabet_of_unique; [done|apply generateAlphabet_spec..].
Qed.

(** X9.  The alphabet depends on the set of characters of the corpus
    alone: two corpora with the same characters (in any order, with any
    repetitions, split into words in any way) give the same alphabet,
    whatever the models held before. *)
Theorem alphabet_depends_on_characters_only m1 m2 corpus1 corpus2 :
  (∀ c, (∃ w, w ∈ corpus1 ∧ c ∈ w) ↔ (∃ w, w ∈ corpus2 ∧ c ∈ w)) →
  Model.m_alphabet (Model.generateAlphabet m1 corpus1)
  = Model.m_alphabet (Model.generateAlphabet m2 corpus2).
Proof. apply alphabet_same_characters. Qed.

Lemma chain_Permutation prior a k corpus1 corpus2 :
  corpus1 ≡ₚ corpus2 → chain prior a k corpus1 = chain prior a k corpus2.
Proof.
  intros Hp. apply map_eq. intros key.
  assert (corpus1 ≫= transitions k ≡ₚ corpus2 ≫= transitions k) as Ht
    by (by rewrite Hp).
  assert (weights_spec prior a k key corpus1
          = weights_spec prior a k key corpus2) as Hw.
  { unfold weights_spec, occurrences. apply list_fmap_ext. intros i c _.
    by rewrite Ht. }
  destruct (lookup_chain prior a k corpus1 key) as [[Ho1 ->]|[Ho1 ->]],
    (lookup_chain prior a k corpus2 key) as [[Ho2 ->]|[Ho2 ->]];
    try done; [by rewrite Hw|..]; exfalso.
  - apply Ho2. destruct Ho1 as [c Hc]. exists c. by rewrite <- Ht.
  - apply Ho1. destruct Ho2 as [c Hc]. exists c. by rewrite Ht.
Qed.

Lemma trained_Permutation corpus1 corpus2 n prior :
  corpus1 ≡ₚ corpus2 → trained corpus1 n prior = trained corpus2 n prior.
Proof.
  intros Hp. unfold trained.
  rewrite (alphabet_same_characters _ (Model.mk prior 0 [] []) corpus1 corpus2).
  - f_equal. apply list_fmap_ext. intros i k _. by apply chain_Permutation.
  - intros c. by setoid_rewrite Hp.
Qed.

(** X10.  Training does not depend on the order of the training words:
    the constructor returns the same model, alphabet and chains, for a
    corpus and for any rearrangement of it. *)
Theorem training_ignores_word_order corpus1 corpus2 (n : nat)
    (prior : double) :
  corpus1 ≡ₚ corpus2 → representable corpus1 n →
  ∃ m, Model.create corpus1 (Z.of_nat n) prior = Ret m
     ∧ Model.create corpus2 (Z.of_nat n) prior = Ret m.
Proof.
  intros Hp Hrep. exists (trained corpus1 n prior).
  split; [by apply create_closed|].
  rewrite (trained_Permutation corpus1 corpus2) by done.
  apply create_closed. destruct Hrep as [Hn Hf]. split; [done|].
  by rewrite <- Hp.
Qed.

End TrainingMore.

Section ChainsMore.
Context `{Platform}.




(** X11.  After training, every key stored in the chain of order [k + 1]
    has exactly [k + 1] characters. *)
Theorem chain_keys_have_order_length (corpus : list cstring) (n : nat)
    (prior : double) (m : Model.t) (k : nat) (model : modelData)
    (key : cstring) (v : list double) :
  representable corpus n →
  Model.create corpus (Z.of_nat n) prior = Ret m →
  Model.m_models m !! k = Some model →
  model !! key = Some v →
  length key = S k.
Proof.
  intros Hrep E Hk Hv. rewrite create_closed in E by done.
  injection E as <-. apply lookup_trained in Hk as [_ ->].
  by eapply chain_key_length.
Qed.


(** X13.  The model the constructor returns has the order and the prior
    it was given and one chain per order; it is trained exactly when the
    order is not 0: with order 0 the alphabet is built but the model stays
    untrained. *)
Theorem created_model_shape corpus (n : nat) (prior : double)
    (m : Model.t) :
  representable corpus n →
  Model.create corpus (Z.of_nat n) prior = Ret m →
  Model.order m = Z.of_nat n
  ∧ Model.m_dPrior m = prior
  ∧ length (models (Model.exportData m)) = n
  ∧ (Model.isTrained m = true ↔ n ≠ 0%nat).
Proof.
  intros Hrep E. rewrite create_closed in E by done. injection E as <-.
  unfold trained, Model.order, Model.isTrained, Model.exportData.
  cbn [Model.m_order Model.m_dPrior Model.m_models models].
  split; [done|]. split; [done|].
  split; [by rewrite length_fmap, length_seq|].
  by destruct n.
Qed.

(** X14.  A negative order makes the constructor and [train] throw
    [std::length_error] before anything is built. *)
Theorem negative_order_throws corpus (order : Z) (prior : double) m0 :
  order < 0 →
  Model.create corpus order prior = Throw length_error
  ∧ Model.train m0 corpus order prior = Throw length_error.
Proof.
  intros Hneg. unfold Model.create, Model.train, vector_resize.
  destruct (Z.ltb_spec order 0); [done|lia].
Qed.



(** X16.  The chains [buildChains] leaves do not depend on the order in
    which the observed keys are visited: folding the loop body over any
    enumeration of the observations gives the same chains. *)
Theorem chains_independent_of_iteration_order (prior : double)
    (a : list ascii) (k : nat) (chains : list modelData) (model0 : modelData)
    (obs : gmap cstring (list ascii)) (l : list (cstring * list ascii)) :
  a ≠ [] → chains !! k = Some model0 → l ≡ₚ map_to_list obs →
  foldl (λ acc kv,
           chains ← acc;
           Model.chain_key prior a (Z.of_nat (S k)) kv.1 kv.2 chains)
        (Ret chains) l
  = map_fold (λ key value acc,
                chains ← acc;
                Model.chain_key prior a (Z.of_nat (S k)) key value chains)
             (Ret chains) obs.
Proof. apply chains_any_iteration_order. Qed.

End ChainsMore.

Lemma alphabet_depends_on_characters_only_witness :
  Model.m_alphabet
    (@Model.generateAlphabet linux_x86_64 (Model.empty 0)
       [str "ab"; str "ba"])
  = Model.m_alphabet
      (@Model.generateAlphabet linux_x86_64 (Model.empty 1) [str "aab"]).
Proof.
  apply (@alphabet_depends_on_characters_only linux_x86_64).
  intros c. cbv [str list_ascii_of_string].
  split; intros (w & Hw & Hc); eexists; (split; [left|]);
    repeat match goal with
           | Hx : _ ∈ _ :: _ |- _ => apply elem_of_cons in Hx as [->|Hx]
           | Hx : _ ∈ [] |- _ => by apply elem_of_nil in Hx
           end;
    repeat constructor.
Defined.

Lemma representable_ab_cd : representable [str "ab"; str "cd"] 2.
Proof. split; [lia|]. repeat constructor. Qed.

Lemma training_ignores_word_order_witness :
  ∃ m, @Model.create linux_x86_64 [str "ab"; str "cd"] (Z.of_nat 2) 0 = Ret m
     ∧ @Model.create linux_x86_64 [str "cd"; str "ab"] (Z.of_nat 2) 0 = Ret m.
Proof.
  apply (@training_ignores_word_order linux_x86_64).
  - apply perm_swap.
  - exact representable_ab_cd.
Defined.

Lemma chain_keys_have_order_length_witness : length (str "#a") = 2%nat.
Proof.
  apply (@chain_keys_have_order_length linux_x86_64 corpus_ab 2 0
           (WordGenerator.m_model generator_ab) 1
           {[ str "##" := [0; 1; 0]%Q; str "#a" := [0; 0; 1]%Q;
              str "ab" := [1; 0; 0]%Q ]}
           (str "#a") [0; 0; 1]%Q).
  - exact representable_ab.
  - exact create_ab.
  - reflexivity.
  - vm_compute. reflexivity.
Defined.


Lemma created_model_shape_witness :
  @Model.order (WordGenerator.m_model generator_ab) = Z.of_nat 2
  ∧ Model.m_dPrior (WordGenerator.m_model generator_ab) = 0%Q
  ∧ length (models (Model.exportData (WordGenerator.m_model generator_ab)))
    = 2%nat
  ∧ (Model.isTrained (WordGenerator.m_model generator_ab) = true
     ↔ 2%nat ≠ 0%nat).
Proof.
  apply (@created_model_shape linux_x86_64 corpus_ab 2 0).
  - exact representable_ab.
  - exact create_ab.
Defined.

Lemma negative_order_throws_witness :
  @Model.create linux_x86_64 corpus_ab (-1) 0 = Throw length_error
  ∧ @Model.train linux_x86_64 (WordGenerator.m_model generator_ab)
      corpus_ab (-1) 0 = Throw length_error.
Proof. apply (@negative_order_throws linux_x86_64). reflexivity. Defined.


Lemma chains_independent_of_iteration_order_witness :
  let obs : gmap cstring (list ascii) :=
    {[ str "a" := str "b"; str "b" := str "#"; str "#" := str "a" ]} in
  foldl (λ acc kv,
           chains ← acc;
           Model.chain_key 0 (str "#ab") (Z.of_nat 1) kv.1 kv.2 chains)
        (Ret [∅]) (reverse (map_to_list obs))
  = map_fold (λ key value acc,
                chains ← acc;
                Model.chain_key 0 (str "#ab") (Z.of_nat 1) key value chains)
             (Ret [∅]) obs.
Proof.
  intros obs.
  apply (chains_independent_of_iteration_order 0 (str "#ab") 0 [∅] ∅ obs).
  - discriminate.
  - reflexivity.
  - apply reverse_Permutation.
Defined.

(** ** Snapshots *)

Section SnapshotMore.
Context `{Platform}.

(** X17.  A model rebuilt from a snapshot takes the number of chains minus
    one for its order (so -1 for a snapshot without chains), and it is
    trained exactly when the snapshot has a chain. *)
Theorem import_order_is_chain_count_minus_one (indet : double)
    (e : ExportedModel) :
  size (models e) < 2 ^ 31 →
  Model.order (Model.import indet e) = size (models e) - 1
  ∧ (Model.isTrained (Model.import indet e) = true ↔ models e ≠ []).
Proof.
  intros Hs. split.
  - destruct (models e) as [|model l] eqn:E.
    + unfold Model.order, Model.import. rewrite E. reflexivity.
    + rewrite <- E in *. apply import_order. split; [|done].
      rewrite E. unfold size. simpl. lia.
  - unfold Model.isTrained, Model.import. cbn [Model.m_models].
    by destruct (models e).
Qed.

(** X18.  Exporting a model rebuilt from a snapshot gives the snapshot
    back, alphabet and chains, for the model and for the generator. *)
Theorem snapshot_round_trip (indet : double) (e : ExportedModel) :
  Model.exportData (Model.import indet e) = e
  ∧ WordGenerator.exportData (WordGenerator.import indet e) = e.
Proof. by destruct e. Qed.

End SnapshotMore.

Lemma import_order_is_chain_count_minus_one_witness :
  Model.order (Model.import 0 (mkExportedModel [] [])) = -1
  ∧ (Model.isTrained (Model.import 0 (mkExportedModel [] [])) = true
     ↔ @nil modelData ≠ []).
Proof.
  apply (import_order_is_chain_count_minus_one 0 (mkExportedModel [] [])).
  reflexivity.
Defined.

(** ** Word generation *)

Section WordsMore.
Context `{Platform}.

Implicit Types (g : WordGenerator.t) (w word : cstring) (s : rng).





(** X20.  A word [newWord] returns before the cap of 100 attempts is
    within the bounds, when these are not negative. *)
Theorem newWord_early_return_within_bounds g fuel
    (minLength maxLength : Z) s w (j : Z) s' :
  WordGenerator.newWord_counted fuel g minLength maxLength s
    = Ret ((w, j), s') →
  WordGenerator.isTrained g = true →
  j < 100 →
  0 ≤ minLength < 2 ^ 31 → 0 ≤ maxLength < 2 ^ 31 →
  minLength ≤ size w ≤ maxLength.
Proof.
  intros E Ht Hj Hmin Hmax.
  apply newWord_counted_inv in E as [(Hu & _)|[_ E]]; [congruence|].
  apply attempts_last in E as (_ & _ & _ & Ho). specialize (Ho Hj).
  unfold WordGenerator.outside in Ho. rewrite !size_t_small in Ho by lia.
  apply orb_false_iff in Ho as [H1%Z.ltb_ge H2%Z.ltb_ge]. lia.
Qed.

(** X21.  A negative [minLength] is compared as a huge [size_t]: no
    candidate shorter than [2^64 - 2^31] characters is accepted before the
    cap, so [newWord] runs its 100 attempts. *)
Theorem newWord_negative_minLength g fuel (minLength maxLength : Z)
    s w (j : Z) s' :
  WordGenerator.newWord_counted fuel g minLength maxLength s
    = Ret ((w, j), s') →
  WordGenerator.isTrained g = true →
  - 2 ^ 31 ≤ minLength < 0 →
  j = 100 ∨ 2 ^ 64 - 2 ^ 31 ≤ size w.
Proof.
  intros E Ht Hmin.
  apply newWord_counted_inv in E as [(Hu & _)|[_ E]]; [congruence|].
  apply attempts_last in E as (_ & Hj & Hcap & Ho).
  destruct (Z.lt_ge_cases j 100) as [Hlt|Hge]; [right|left; lia].
  specialize (Ho Hlt). unfold WordGenerator.outside in Ho.
  apply orb_false_iff in Ho as [H1%Z.ltb_ge _].
  unfold size_t in H1.
  rewrite <- (Z_mod_plus_full _ 1), Z.mod_small in H1 by lia. lia.
Qed.

Lemma newWord_letters g fuel minLength maxLength s w s' :
  WordGenerator.newWord fuel g minLength maxLength s = Ret (w, s') →
  ∀ c, c ∈ w →
    c ≠ boundary ∧ c ∈ Model.m_alphabet (WordGenerator.m_model g).
Proof.
  intros [j E]%newWord_inv.
  apply newWord_counted_inv in E as [(_ & -> & _)|[_ E]].
  - by intros c ?%elem_of_nil.
  - apply attempts_last in E as ((s0 & _ & E) & _).
    by apply attempt_letters in E as [E _].
Qed.

Lemma collect_Forall (P : cstring → Prop) g n minLength maxLength repeat
    fuel :
  (∀ s w s', WordGenerator.newWord fuel g minLength maxLength s
             = Ret (w, s') → P w) →
  ∀ turns (words : list cstring) s ws s',
    WordGenerator.collect turns fuel g n minLength maxLength repeat words s
      = Ret (ws, s') →
    Forall P words → Forall P ws.
Proof.
  intros HP. induction turns as [|turns IH]; intros words s ws s'; simpl;
    destruct (length words <? n)%nat; try discriminate;
    try (by intros [[= <-] _]%mret_Ret).
  intros (w & s1 & Ew & E)%M_bind_Ret Hwords. cbv beta zeta in E.
  apply IH in E; [done|].
  destruct (repeat || _); [|done].
  apply Forall_app. split; [done|]. constructor; [by eapply HP|constructor].
Qed.

(** X22.  Every word of a sequence [newWords] returns, with or without
    repeats, is free of the boundary marker and made of letters of the
    alphabet. *)
Theorem newWords_words_free_of_boundary g turns fuel (n : nat)
    (minLength maxLength : Z) (repeat : bool) s ws s' :
  WordGenerator.newWords turns fuel g n minLength maxLength repeat s
    = Ret (ws, s') →
  ∀ w c, w ∈ ws → c ∈ w →
    c ≠ boundary ∧ c ∈ Model.m_alphabet (WordGenerator.m_model g).
Proof.
  unfold WordGenerator.newWords. destruct (negb _).
  - intros [[= ->] _]%mret_Ret w c Hw. by apply elem_of_nil in Hw.
  - intros E w c Hw.
    eapply (collect_Forall
              (λ w, ∀ c, c ∈ w → c ≠ boundary
                 ∧ c ∈ Model.m_alphabet (WordGenerator.m_model g))) in E.
    + rewrite Forall_forall in E. by apply E.
    + intros ???. apply newWord_letters.
    + constructor.
Qed.



End WordsMore.

Section Hazard.
Context `{Platform}.

Implicit Types (g : WordGenerator.t) (w word : cstring) (s : rng).






End Hazard.


Lemma newWord_early_return_within_bounds_witness :
  1 ≤ size (str "ab") ≤ 8.
Proof.
  apply (@newWord_early_return_within_bounds linux_x86_64 generator_ab 200
           1 8 (constant_rng 0) (str "ab") 1 (mkRng (λ _, 0) 3)).
  - vm_compute. reflexivity.
  - reflexivity.
  - reflexivity.
  - split; [by vm_compute | reflexivity].
  - split; [by vm_compute | reflexivity].
Defined.

Lemma newWord_negative_minLength_witness :
  100 = 100 ∨ 2 ^ 64 - 2 ^ 31 ≤ size (str "ab").
Proof.
  apply (@newWord_negative_minLength linux_x86_64 generator_ab 200
           (-1) 10 (constant_rng 0) (str "ab") 100 (mkRng (λ _, 0) 300)).
  - vm_compute. reflexivity.
  - reflexivity.
  - split; [by vm_compute | reflexivity].
Defined.

Lemma newWords_words_free_of_boundary_witness :
  "a"%char ≠ boundary
  ∧ "a"%char ∈ Model.m_alphabet (WordGenerator.m_model generator_ab).
Proof.
  apply (@newWords_words_free_of_boundary linux_x86_64 generator_ab 5 200
           2 1 8 true (constant_rng 0) [str "ab"; str "ab"]
           (mkRng (λ _, 0) 6) eq_refl (str "ab") "a"%char).
  - left.
  - left.
Defined.



